(** * Epochs store of the Cardano explorer: a shallow embedding

    The development follows [EpochsStore] (the MobX store of the epochs
    feature) and the [shrinkAddress] helper.  JavaScript values are modelled
    as far as the store uses them: whole-valued doubles with their rounding,
    the infinities and NaN, [undefined], arrays of references to epoch records that live in an object
    heap (so that aliasing between the query result and the store's slots is
    visible), and asynchronous handlers cut at their [await]. *)

From Stdlib Require Import ZArith NArith Ascii String List Bool Lia.
From stdpp Require Import base tactics option list list_monad.

Local Open Scope Z_scope.

(** ** JavaScript numbers and values *)

Module Js.

(** Epoch numbers, block heights, page numbers and page sizes are whole
    numbers.  [Int z] is the double whose value is the whole number [z] (the
    two zeros are not told apart: they are [===] and serialise alike); the
    infinities and [NaN] are kept because the arithmetic of the store can
    produce them. *)
Inductive number : Type :=
| Int (z : Z)
| PosInf
| NegInf
| NaN.

Inductive value : Type :=
| undefined
| num (n : number).

(** Doubles carry 53 significant bits: every whole number up to [2^53] in
    magnitude is a double, and arithmetic whose exact result stays in that
    range is exact. *)
Definition max_exact : Z := 2 ^ 53.

Definition safe (z : Z) : Prop := - max_exact <= z <= max_exact.

(** Magnitudes from [2^1024] on are not doubles. *)
Definition overflow : Z := 2 ^ 1024.

(** IEEE-754 round to nearest, ties to even, of a whole number of magnitude
    at least [2^52]: the result is a multiple of the spacing [2^(log2 |z| - 52)]
    of the doubles around [z]. *)
Definition round_even (z : Z) : Z :=
  let a := Z.abs z in
  let u := 2 ^ (Z.log2 a - 52) in
  let q := a / u in
  let r := a mod u in
  let q' :=
    if 2 * r <? u then q
    else if u <? 2 * r then q + 1
    else if Z.even q then q else q + 1 in
  Z.sgn z * (q' * u).

(** The double an exact whole result is delivered as. *)
Definition of_Z (z : Z) : number :=
  if Z.abs z <? max_exact then Int z
  else
    let m := round_even z in
    if overflow <=? Z.abs m then (if 0 <? z then PosInf else NegInf)
    else Int m.

(** The terms that denote a double: a whole number that rounding leaves
    alone, an infinity or NaN.  Every JavaScript number of whole value
    satisfies it; it only rules out terms such as [Int (2^53 + 1)], which
    denote no number. *)
Definition is_double (n : number) : Prop :=
  match n with
  | Int z => of_Z z = Int z
  | PosInf | NegInf | NaN => True
  end.

(** [ToNumber] of the language specification, on the values above. *)
Definition ToNumber (v : value) : number :=
  match v with
  | undefined => NaN
  | num n => n
  end.

(** [a - b] on numbers: the exact difference, rounded. *)
Definition Number_sub (a b : number) : number :=
  match a, b with
  | NaN, _ | _, NaN => NaN
  | Int x, Int y => of_Z (x - y)
  | PosInf, PosInf | NegInf, NegInf => NaN
  | PosInf, _ | _, NegInf => PosInf
  | NegInf, _ | _, PosInf => NegInf
  end.

(** [a * b] on numbers: the exact product, rounded. *)
Definition Number_mul (a b : number) : number :=
  match a, b with
  | NaN, _ | _, NaN => NaN
  | Int x, Int y => of_Z (x * y)
  | PosInf, Int y | Int y, PosInf =>
      if y =? 0 then NaN else if 0 <? y then PosInf else NegInf
  | NegInf, Int y | Int y, NegInf =>
      if y =? 0 then NaN else if 0 <? y then NegInf else PosInf
  | PosInf, PosInf | NegInf, NegInf => PosInf
  | PosInf, NegInf | NegInf, PosInf => NegInf
  end.

(** The binary [-] operator: both operands go through [ToNumber]. *)
Definition sub (a b : value) : number :=
  Number_sub (ToNumber a) (ToNumber b).

(** [Math.max(a, b)]: NaN if either argument is NaN. *)
Definition Math_max (a b : number) : number :=
  match a, b with
  | NaN, _ | _, NaN => NaN
  | PosInf, _ | _, PosInf => PosInf
  | NegInf, x | x, NegInf => x
  | Int x, Int y => Int (Z.max x y)
  end.

(** lodash's [isNumber]: true of every number primitive, NaN included. *)
Definition isNumber (v : value) : bool :=
  match v with
  | num _ => true
  | undefined => false
  end.

(** A string is its sequence of UTF-16 code units. *)
Definition code_unit : Type := N.
Definition jsstring : Type := list code_unit.

Definition of_string (s : string) : jsstring :=
  map (fun c => N_of_ascii c) (list_ascii_of_string s).

Definition str_length (s : jsstring) : Z := Z.of_nat (length s).

(** Index clamping of [String.prototype.substring]: below 0 becomes 0,
    above the length becomes the length. *)
Definition clamp (len i : Z) : Z := Z.min (Z.max i 0) len.

(** [s.substring(start, end)]: both indices are clamped and swapped when
    out of order. *)
Definition substring (s : jsstring) (start end_ : Z) : jsstring :=
  let len := str_length s in
  let a := clamp len start in
  let b := clamp len end_ in
  let from := Z.min a b in
  let to := Z.max a b in
  take (Z.to_nat (to - from)) (drop (Z.to_nat from) s).

(** [s.substring(start)]: the end defaults to the length. *)
Definition substring_from (s : jsstring) (start : Z) : jsstring :=
  substring s start (str_length s).

End Js.

(** ** shrinkAddress *)

Definition ellipsis : Js.jsstring := Js.of_string "...".

Definition shrinkAddress (address : Js.jsstring) : Js.jsstring :=
  if Js.str_length address <=? 34 then address
  else Js.substring address 0 17 ++ ellipsis
         ++ Js.substring_from address (Js.str_length address - 17).

(** ** Data model of the epochs store *)

(** Objects are referred to by their location in the heap; two references
    alias when they hold the same location. *)
Abbreviation loc := nat (only parsing).

(** Modelled from the spec: the generated [EpochOverviewFragment] typing is
    not part of the sources; a raw epoch record carries "at least an epoch
    identifier and a last-block-time field".  Timestamps are primitive values,
    compared by value. *)
Record EpochOverviewFragment : Type := {
  number : Z;
  lastBlockTime : Z;
}.

(** A member of [GetEpochsInRangeQuery['epochs']]: a reference to an epoch
    record, [null] or [undefined]. *)
Inductive Entry : Type :=
| ENull
| EUndefined
| ERef (l : loc).

(** The same member as it comes off the wire, before the objects exist. *)
Inductive RawEntry : Type :=
| RNull
| RUndefined
| RObj (e : EpochOverviewFragment).

(** [GetEpochsInRangeQuery]: the object a successful execution resolves to. *)
Record GetEpochsInRangeQuery : Type := {
  epochs : list Entry;
}.

(** Variables of the range query.  [lower] and [upper] are JavaScript values
    because nothing in the handler forces them to be defined numbers. *)
Record Variables : Type := {
  lower : Js.value;
  upper : Js.value;
}.

(** Modelled from the spec: the observable state of the Query Gateway request
    object ([lib/graphql/GraphQLRequest] is not part of the sources): "a result
    snapshot" and the flags [hasBeenExecutedAtLeastOnce], [isExecuting],
    [isExecutingTheFirstTime]. *)
Record GraphQLRequest : Type := {
  result : option GetEpochsInRangeQuery;
  isExecuting : bool;
  hasBeenExecutedAtLeastOnce : bool;
  isExecutingTheFirstTime : bool;
}.

(** Network Info contract:
    [{blockHeight: number, currentEpoch: number | undefined, isFetching}].
    Block heights are integer counters. *)
Record NetworkInfoStore : Type := {
  blockHeight : Z;
  currentEpoch : Js.value;
  isFetching : bool;
}.

(** Blocks Provider contract: [{latestBlocks: Sequence<{createdAt, ...}>}]. *)
Record BlockOverview : Type := {
  createdAt : Z;
}.

Record BlocksStore : Type := {
  latestBlocks : list BlockOverview;
}.

(** The store together with the objects it can reach.  [heap] holds every
    epoch record ever created by the gateway; the two raw-data slots and the
    gateway's result snapshot hold references into it. *)
Record EpochsStore : Type := {
  heap : list EpochOverviewFragment;
  browsedEpochsRawData : list Entry;
  latestEpochsRawData : list Entry;
  lastFetchedAtBlockHeight : Z;
  getEpochsInRangeQuery : GraphQLRequest;
  networkInfo : NetworkInfoStore;
  blocks : BlocksStore;
  latestEpochsReactionsRunning : bool;
}.

(** Field updates. *)
Definition set_heap (h : list EpochOverviewFragment) (s : EpochsStore) : EpochsStore :=
  {| heap := h;
     browsedEpochsRawData := browsedEpochsRawData s;
     latestEpochsRawData := latestEpochsRawData s;
     lastFetchedAtBlockHeight := lastFetchedAtBlockHeight s;
     getEpochsInRangeQuery := getEpochsInRangeQuery s;
     networkInfo := networkInfo s;
     blocks := blocks s;
     latestEpochsReactionsRunning := latestEpochsReactionsRunning s |}.

Definition set_browsedEpochsRawData (es : list Entry) (s : EpochsStore) : EpochsStore :=
  {| heap := heap s;
     browsedEpochsRawData := es;
     latestEpochsRawData := latestEpochsRawData s;
     lastFetchedAtBlockHeight := lastFetchedAtBlockHeight s;
     getEpochsInRangeQuery := getEpochsInRangeQuery s;
     networkInfo := networkInfo s;
     blocks := blocks s;
     latestEpochsReactionsRunning := latestEpochsReactionsRunning s |}.

Definition set_latestEpochsRawData (es : list Entry) (s : EpochsStore) : EpochsStore :=
  {| heap := heap s;
     browsedEpochsRawData := browsedEpochsRawData s;
     latestEpochsRawData := es;
     lastFetchedAtBlockHeight := lastFetchedAtBlockHeight s;
     getEpochsInRangeQuery := getEpochsInRangeQuery s;
     networkInfo := networkInfo s;
     blocks := blocks s;
     latestEpochsReactionsRunning := latestEpochsReactionsRunning s |}.

Definition set_lastFetchedAtBlockHeight (h : Z) (s : EpochsStore) : EpochsStore :=
  {| heap := heap s;
     browsedEpochsRawData := browsedEpochsRawData s;
     latestEpochsRawData := latestEpochsRawData s;
     lastFetchedAtBlockHeight := h;
     getEpochsInRangeQuery := getEpochsInRangeQuery s;
     networkInfo := networkInfo s;
     blocks := blocks s;
     latestEpochsReactionsRunning := latestEpochsReactionsRunning s |}.

Definition set_getEpochsInRangeQuery (q : GraphQLRequest) (s : EpochsStore) : EpochsStore :=
  {| heap := heap s;
     browsedEpochsRawData := browsedEpochsRawData s;
     latestEpochsRawData := latestEpochsRawData s;
     lastFetchedAtBlockHeight := lastFetchedAtBlockHeight s;
     getEpochsInRangeQuery := q;
     networkInfo := networkInfo s;
     blocks := blocks s;
     latestEpochsReactionsRunning := latestEpochsReactionsRunning s |}.

Definition set_networkInfo (ni : NetworkInfoStore) (s : EpochsStore) : EpochsStore :=
  {| heap := heap s;
     browsedEpochsRawData := browsedEpochsRawData s;
     latestEpochsRawData := latestEpochsRawData s;
     lastFetchedAtBlockHeight := lastFetchedAtBlockHeight s;
     getEpochsInRangeQuery := getEpochsInRangeQuery s;
     networkInfo := ni;
     blocks := blocks s;
     latestEpochsReactionsRunning := latestEpochsReactionsRunning s |}.

Definition set_blocks (b : BlocksStore) (s : EpochsStore) : EpochsStore :=
  {| heap := heap s;
     browsedEpochsRawData := browsedEpochsRawData s;
     latestEpochsRawData := latestEpochsRawData s;
     lastFetchedAtBlockHeight := lastFetchedAtBlockHeight s;
     getEpochsInRangeQuery := getEpochsInRangeQuery s;
     networkInfo := networkInfo s;
     blocks := b;
     latestEpochsReactionsRunning := latestEpochsReactionsRunning s |}.

Definition set_latestEpochsReactionsRunning (b : bool) (s : EpochsStore) : EpochsStore :=
  {| heap := heap s;
     browsedEpochsRawData := browsedEpochsRawData s;
     latestEpochsRawData := latestEpochsRawData s;
     lastFetchedAtBlockHeight := lastFetchedAtBlockHeight s;
     getEpochsInRangeQuery := getEpochsInRangeQuery s;
     networkInfo := networkInfo s;
     blocks := blocks s;
     latestEpochsReactionsRunning := b |}.

(** The store as the constructor leaves it, given its dependencies: both
    slots are the empty array and the watermark is 0. *)
Definition new_EpochsStore (ni : NetworkInfoStore) (b : BlocksStore) : EpochsStore :=
  {| heap := [];
     browsedEpochsRawData := [];
     latestEpochsRawData := [];
     lastFetchedAtBlockHeight := 0;
     getEpochsInRangeQuery :=
       {| result := None; isExecuting := false;
          hasBeenExecutedAtLeastOnce := false;
          isExecutingTheFirstTime := false |};
     networkInfo := ni;
     blocks := b;
     latestEpochsReactionsRunning := false |}.

(** ** The Query Gateway *)

(** Modelled from the spec: the synchronous part of
    [getEpochsInRangeQuery.execute] ([lib/graphql/GraphQLRequest] is not part
    of the sources).  The request is in flight from the call on. *)
Definition GraphQLRequest_execute (q : GraphQLRequest) : GraphQLRequest :=
  {| result := result q;
     isExecuting := true;
     hasBeenExecutedAtLeastOnce := hasBeenExecutedAtLeastOnce q;
     isExecutingTheFirstTime := negb (hasBeenExecutedAtLeastOnce q) |}.

(** Modelled from the spec: the request object once an execution has settled
    with [r] ("typed results or a failure indication", the latter [None]).  A
    successful result becomes the [result] snapshot; no statement below
    depends on what a failure does to the snapshot. *)
Definition GraphQLRequest_settled (r : option GetEpochsInRangeQuery)
    (q : GraphQLRequest) : GraphQLRequest :=
  {| result := match r with Some _ => r | None => result q end;
     isExecuting := false;
     hasBeenExecutedAtLeastOnce := true;
     isExecutingTheFirstTime := false |}.

(** The objects of a response are created when it is decoded: every record
    gets a location of its own at the end of the heap. *)
Fixpoint alloc (raw : list RawEntry) (h : list EpochOverviewFragment)
  : list EpochOverviewFragment * list Entry :=
  match raw with
  | [] => (h, [])
  | RNull :: raw' =>
      let '(h', es) := alloc raw' h in (h', ENull :: es)
  | RUndefined :: raw' =>
      let '(h', es) := alloc raw' h in (h', EUndefined :: es)
  | RObj e :: raw' =>
      let l := length h in
      let '(h', es) := alloc raw' (h ++ [e]) in (h', ERef l :: es)
  end.

(** What an array of entries looks like from outside: every reference
    replaced by the record it points to.  [None] if a reference dangles. *)
Definition deref (h : list EpochOverviewFragment) (e : Entry) : option RawEntry :=
  match e with
  | ENull => Some RNull
  | EUndefined => Some RUndefined
  | ERef l => RObj <$> h !! l
  end.

Definition view (h : list EpochOverviewFragment) (es : list Entry)
  : option (list RawEntry) :=
  mapM (deref h) es.

(** The promise of an execution settles: with [Some raw] the response is
    decoded into fresh objects, recorded as the snapshot and handed to the
    awaiting handler; with [None] the handler receives [null]. *)
Definition settle (outcome : option (list RawEntry)) (s : EpochsStore)
  : EpochsStore * option GetEpochsInRangeQuery :=
  match outcome with
  | Some raw =>
      let '(h, es) := alloc raw (heap s) in
      let r := {| epochs := es |} in
      (set_getEpochsInRangeQuery
         (GraphQLRequest_settled (Some r) (getEpochsInRangeQuery s))
         (set_heap h s),
       Some r)
  | None =>
      (set_getEpochsInRangeQuery
         (GraphQLRequest_settled None (getEpochsInRangeQuery s)) s,
       None)
  end.

(** ** Action handlers *)

(** The code of a handler after its [await]. *)
Inductive Continuation : Type :=
| AfterFetchLatestEpochs
| AfterBrowseEpochs.

(** A handler suspended at its [await]: the variables the gateway was called
    with and what runs when the promise settles. *)
Record Pending : Type := {
  request : Variables;
  continuation : Continuation;
}.

(** [fetchEpochsInRange]: passes [params] to the gateway unchanged. *)
Definition fetchEpochsInRange (params : Variables) (s : EpochsStore)
  : EpochsStore * Variables :=
  (set_getEpochsInRangeQuery
     (GraphQLRequest_execute (getEpochsInRangeQuery s)) s,
   params).

(** [fetchLatestEpochs], up to the [await]. *)
Definition fetchLatestEpochs (s : EpochsStore) : EpochsStore * Pending :=
  let currentEpoch := currentEpoch (networkInfo s) in
  let upper := currentEpoch in
  let lower := Js.Math_max (Js.Int 0) (Js.sub upper (Js.num (Js.Int 4))) in
  let '(s', req) :=
    fetchEpochsInRange {| lower := Js.num lower; upper := upper |} s in
  (s', {| request := req; continuation := AfterFetchLatestEpochs |}).

(** [ActionProps] of [browseEpochs]. *)
Record BrowseEpochsParams : Type := {
  page : Js.number;
  perPage : Js.number;
}.

(** [browseEpochs], up to the [await]. *)
Definition browseEpochs (params : BrowseEpochsParams) (s : EpochsStore)
  : EpochsStore * Pending :=
  let upper := Js.Number_mul (page params) (perPage params) in
  let '(s', req) :=
    fetchEpochsInRange
      {| lower := Js.num (Js.Number_sub upper (perPage params));
         upper := Js.num upper |} s in
  (s', {| request := req; continuation := AfterBrowseEpochs |}).

(** The rest of both handlers: [if (result) { slot = result.epochs }]. *)
Definition resume (k : Continuation) (result : option GetEpochsInRangeQuery)
    (s : EpochsStore) : EpochsStore :=
  match k, result with
  | AfterFetchLatestEpochs, Some r => set_latestEpochsRawData (epochs r) s
  | AfterBrowseEpochs, Some r => set_browsedEpochsRawData (epochs r) s
  | _, None => s
  end.

(** A pending handler runs to its end when its promise settles. *)
Definition complete (k : Continuation) (outcome : option (list RawEntry))
    (s : EpochsStore) : EpochsStore :=
  let '(s', result) := settle outcome s in
  resume k result s'.

Definition startPollingLatestEpochs (s : EpochsStore) : EpochsStore :=
  set_latestEpochsReactionsRunning true s.

Definition stopPollingLatestEpochs (s : EpochsStore) : EpochsStore :=
  set_latestEpochsReactionsRunning false s.

(** The four actions of [EpochsActions]. *)
Inductive EpochsActions : Type :=
| browseEpochs_action (params : BrowseEpochsParams)
| fetchLatestEpochs_action
| startPollingLatestEpochs_action
| stopPollingLatestEpochs_action.

(** Modelled from the spec: [lib/ActionBinding] is not part of the sources;
    "UI action -> store handler".  [trigger] runs the handler the constructor
    bound to the action and reports the gateway calls it made. *)
Definition trigger (a : EpochsActions) (s : EpochsStore)
  : EpochsStore * list Pending :=
  match a with
  | browseEpochs_action params =>
      let '(s', p) := browseEpochs params s in (s', [p])
  | fetchLatestEpochs_action =>
      let '(s', p) := fetchLatestEpochs s in (s', [p])
  | startPollingLatestEpochs_action => (startPollingLatestEpochs s, [])
  | stopPollingLatestEpochs_action => (stopPollingLatestEpochs s, [])
  end.

(** ** Reactions *)

(** The guard of [fetchLatestEpochsOnBlockHeightChange]: when it holds the
    reaction returns at once. *)
Definition skipsFetch (s : EpochsStore) : bool :=
  negb (Js.isNumber (currentEpoch (networkInfo s)))
  || isExecuting (getEpochsInRangeQuery s)
  || isFetching (networkInfo s)
  || (lastFetchedAtBlockHeight s =? blockHeight (networkInfo s)).

Definition fetchLatestEpochsOnBlockHeightChange (s : EpochsStore)
  : EpochsStore * list Pending :=
  if skipsFetch s then (s, [])
  else
    let s' := set_lastFetchedAtBlockHeight (blockHeight (networkInfo s)) s in
    trigger fetchLatestEpochs_action s'.

(** [currentEpoch.lastBlockTime = lastBlockTime]: an update of the object at
    [l], seen through every reference to it.  A reference always has an
    object behind it ([wf] below); the reaction is the identity on a heap
    where it has not. *)
Definition set_lastBlockTime (t : Z) (e : EpochOverviewFragment)
  : EpochOverviewFragment :=
  {| number := number e; lastBlockTime := t |}.

Definition syncLatestEpochWithLatestBlockDate (s : EpochsStore) : EpochsStore :=
  let latestBlock := head (latestBlocks (blocks s)) in
  let epochs := epochs <$> result (getEpochsInRangeQuery s) in
  let currentEpoch :=
    match epochs with
    | Some (e :: _) => e
    | _ => ENull
    end in
  match latestBlock, currentEpoch with
  | Some latestBlock, ERef l =>
      match heap s !! l with
      | Some e =>
          let lastBlockTime_ := createdAt latestBlock in
          let currentEpochLastBlockTime := lastBlockTime e in
          if negb (lastBlockTime_ =? currentEpochLastBlockTime)
          then set_heap (<[l := set_lastBlockTime lastBlockTime_ e]> (heap s)) s
          else s
      | None => s
      end
  | _, _ => s
  end.

(** ** Computed getters *)

(** Modelled from the spec: [isDefined] of [lib/types] is not part of the
    sources; it keeps what is neither [null] nor [undefined]. *)
Definition isDefined (e : Entry) : bool :=
  match e with
  | ERef _ => true
  | ENull | EUndefined => false
  end.

Section Derivations.

(** The Epoch Overview Transformer and its result type are taken as given:
    "a pure mapping function from raw epoch + network-info data to a
    display-ready overview record". *)
Context {IEpochOverview : Type}.
Variable epochOverviewTransformer :
  EpochOverviewFragment -> NetworkInfoStore -> IEpochOverview.

(** The callback of [.map]: it reads the fields of its argument, which
    fails ([None]) on [null] and [undefined]. *)
Definition transformEntry (s : EpochsStore) (e : Entry) : option IEpochOverview :=
  match e with
  | ERef l =>
      (fun r => epochOverviewTransformer r (networkInfo s)) <$> heap s !! l
  | ENull | EUndefined => None
  end.

Definition transformEpochs (s : EpochsStore) (epochs : list Entry)
  : option (list IEpochOverview) :=
  mapM (transformEntry s) (List.filter isDefined epochs).

Definition browsedEpochs (s : EpochsStore) : option (list IEpochOverview) :=
  transformEpochs s (browsedEpochsRawData s).

Definition latestEpochs (s : EpochsStore) : option (list IEpochOverview) :=
  transformEpochs s (latestEpochsRawData s).

End Derivations.

Definition currentEpochNumber (s : EpochsStore) : Js.value :=
  currentEpoch (networkInfo s).

Definition isLoadingLatestEpochsFirstTime (s : EpochsStore) : bool :=
  negb (hasBeenExecutedAtLeastOnce (getEpochsInRangeQuery s))
  || isExecutingTheFirstTime (getEpochsInRangeQuery s).

(** ** The store as a transition system *)

Inductive Event : Type :=
| UserAction (a : EpochsActions)
| Settled (k : Continuation) (outcome : option (list RawEntry))
| NetworkInfoChanged (ni : NetworkInfoStore)
| BlocksChanged (b : BlocksStore)
| ReactFetch
| ReactSync.

Definition step (ev : Event) (s : EpochsStore) : EpochsStore * list Pending :=
  match ev with
  | UserAction a => trigger a s
  | Settled k outcome => (complete k outcome s, [])
  | NetworkInfoChanged ni => (set_networkInfo ni s, [])
  | BlocksChanged b => (set_blocks b s, [])
  | ReactFetch =>
      if latestEpochsReactionsRunning s
      then fetchLatestEpochsOnBlockHeightChange s
      else (s, [])
  | ReactSync =>
      if latestEpochsReactionsRunning s
      then (syncLatestEpochWithLatestBlockDate s, [])
      else (s, [])
  end.

(** Runs a sequence of events, collecting the gateway calls. *)
Fixpoint run (evs : list Event) (s : EpochsStore) : EpochsStore * list Pending :=
  match evs with
  | [] => (s, [])
  | ev :: evs' =>
      let '(s1, ps1) := step ev s in
      let '(s2, ps2) := run evs' s1 in
      (s2, ps1 ++ ps2)
  end.

(** ** Well-formed heaps and the view of a response *)

(** [e] refers, if to anything, to a location in [[lo, hi)]. *)
Definition entry_within (lo hi : nat) (e : Entry) : Prop :=
  match e with
  | ERef l => (lo <= l < hi)%nat
  | ENull | EUndefined => True
  end.

(** No reference of [es] dangles in [h]. *)
Definition allocated (h : list EpochOverviewFragment) (es : list Entry) : Prop :=
  Forall (entry_within 0 (length h)) es.

(** Every array the store can reach refers to live objects only. *)
Definition wf (s : EpochsStore) : Prop :=
  allocated (heap s) (browsedEpochsRawData s)
  /\ allocated (heap s) (latestEpochsRawData s)
  /\ match result (getEpochsInRangeQuery s) with
     | Some r => allocated (heap s) (epochs r)
     | None => True
     end.

(** The records of a sequence that are neither [null] nor [undefined], in
    order: what the spec calls its non-null entries. *)
Fixpoint nonNullRecords (raw : list RawEntry) : list EpochOverviewFragment :=
  match raw with
  | [] => []
  | RObj e :: raw' => e :: nonNullRecords raw'
  | RNull :: raw' | RUndefined :: raw' => nonNullRecords raw'
  end.

(** Events between two evaluations of the polling reaction that leave the
    observed block height at [h]: anything but the reaction itself and a
    Network Info update to another height. *)
Definition keepsBlockHeight (h : Z) (ev : Event) : Prop :=
  match ev with
  | NetworkInfoChanged ni => blockHeight ni = h
  | ReactFetch => False
  | _ => True
  end.

(** States the store can be in: the constructor's, then any events. *)
Definition reachable (s : EpochsStore) : Prop :=
  exists ni b evs, fst (run evs (new_EpochsStore ni b)) = s.

(** ** The unused snapshot getter and the calls of the polling reaction *)

Section SnapshotDerivation.

Context {IEpochOverview : Type}.
Variable epochOverviewTransformer :
  EpochOverviewFragment -> NetworkInfoStore -> IEpochOverview.

(** [transformBrowsedEpochsResult]: [result?.epochs.filter(..).map(..) ?? null]
    on the gateway's snapshot.  The outer [option] is the failure of the
    [.map] callback as in [transformEpochs]; the inner one is [null]. *)
Definition transformBrowsedEpochsResult (s : EpochsStore)
  : option (option (list IEpochOverview)) :=
  match result (getEpochsInRangeQuery s) with
  | Some r => Some <$> transformEpochs epochOverviewTransformer s (epochs r)
  | None => Some None
  end.

End SnapshotDerivation.

(** Events that leave the observed block height at [h]; unlike
    [keepsBlockHeight], evaluations of the polling reaction are allowed. *)
Definition observesBlockHeight (h : Z) (ev : Event) : Prop :=
  match ev with
  | NetworkInfoChanged ni => blockHeight ni = h
  | _ => True
  end.

(** The gateway calls made by evaluations of the polling reaction during a
    run (calls made by user actions are not counted). *)
Fixpoint pollingCalls (evs : list Event) (s : EpochsStore) : nat :=
  match evs with
  | [] => 0
  | ev :: evs' =>
      let '(s1, ps) := step ev s in
      (match ev with ReactFetch => length ps | _ => 0%nat end
       + pollingCalls evs' s1)%nat
  end.

(** ** Scenarios used in the examples below *)

Definition epoch (n t : Z) : EpochOverviewFragment :=
  {| number := n; lastBlockTime := t |}.

Definition block (t : Z) : BlockOverview := {| createdAt := t |}.

Definition network (h : Z) (e : Js.value) (f : bool) : NetworkInfoStore :=
  {| blockHeight := h; currentEpoch := e; isFetching := f |}.

(** A 35 character address. *)
Definition address35 : Js.jsstring :=
  Js.of_string "Ae2tdPwUPEZFRbyhz3cpfC2CumGzNkFBN2L".

(** The store after [fetchLatestEpochs] resolved with epochs 10 and 9. *)
Definition scenario_start : EpochsStore :=
  new_EpochsStore (network 7 (Js.num (Js.Int 10)) false)
                  {| latestBlocks := [block 200] |}.

Definition scenario_latest : EpochsStore :=
  complete AfterFetchLatestEpochs
    (Some [RObj (epoch 10 100); RObj (epoch 9 90)])
    (fst (fetchLatestEpochs scenario_start)).

(** The same store after a later [browseEpochs({page: 1, perPage: 2})]
    resolved with epochs 2, 1 and 0. *)
Definition scenario_browsed : EpochsStore :=
  complete AfterBrowseEpochs
    (Some [RObj (epoch 2 30); RObj (epoch 1 20); RObj (epoch 0 10)])
    (fst (browseEpochs {| page := Js.Int 1; perPage := Js.Int 2 |}
            scenario_latest)).

(** A store whose Network Info knows the block height but not the epoch. *)
Definition scenario_no_epoch : EpochsStore :=
  new_EpochsStore (network 5 Js.undefined false) {| latestBlocks := [] |}.

(** A store that fetched at height 7, saw height 8 while Network Info was
    itself fetching (so the reaction did not fire), and is about to see the
    height go back to 7. *)
Definition scenario_height_8 : EpochsStore :=
  fst (run [UserAction startPollingLatestEpochs_action;
            ReactFetch;
            Settled AfterFetchLatestEpochs (Some [RObj (epoch 10 100)]);
            NetworkInfoChanged (network 8 (Js.num (Js.Int 10)) true);
            ReactFetch]
           (new_EpochsStore (network 7 (Js.num (Js.Int 10)) false)
                            {| latestBlocks := [] |})).

Definition scenario_height_back : EpochsStore :=
  fst (step (NetworkInfoChanged (network 7 (Js.num (Js.Int 10)) false))
            scenario_height_8).

(** * Properties *)

(** ** Arithmetic on doubles *)

(** Whole results of magnitude up to [2^53] are delivered exactly. *)
Lemma of_Z_safe (z : Z) : Js.safe z -> Js.of_Z z = Js.Int z.
Proof.
  unfold Js.safe, Js.of_Z. intros Hz.
  destruct (Z.ltb_spec (Z.abs z) Js.max_exact) as [_|Hge]; [reflexivity|].
  assert (Hz' : z = Js.max_exact \/ z = - Js.max_exact) by lia.
  destruct Hz' as [-> | ->]; vm_compute; reflexivity.
Qed.

Lemma Number_sub_safe (x y : Z) :
  Js.safe (x - y) -> Js.Number_sub (Js.Int x) (Js.Int y) = Js.Int (x - y).
Proof. intros H. simpl. by apply of_Z_safe. Qed.

Lemma Number_mul_safe (x y : Z) :
  Js.safe (x * y) -> Js.Number_mul (Js.Int x) (Js.Int y) = Js.Int (x * y).
Proof. intros H. simpl. by apply of_Z_safe. Qed.

(** Beyond [2^53] results are rounded to the nearest double, ties to even,
    and overflow to an infinity. *)
Lemma rounding_examples :
  Js.Number_sub (Js.Int (10 ^ 21)) (Js.Int 4) = Js.Int (10 ^ 21)
  /\ Js.Number_mul (Js.Int 94906267) (Js.Int 94906267)
     = Js.Int 9007199515875288
  /\ Js.Number_sub (Js.Int 9007199515875288) (Js.Int 94906267)
     = Js.Int 9007199420969020
  /\ Js.of_Z (2 ^ 53 + 1) = Js.Int (2 ^ 53)
  /\ Js.of_Z (2 ^ 53 + 3) = Js.Int (2 ^ 53 + 4)
  /\ Js.Number_mul (Js.Int (10 ^ 200)) (Js.Int (10 ^ 200)) = Js.PosInf.
Proof. vm_compute. repeat split. Qed.

(** Clamping at 0 after subtracting 4 is exact on the whole safe range: the
    four differences that leave the range are negative and still round to a
    negative number. *)
Lemma clamp_sub4_safe (n : Z) :
  Js.safe n ->
  Js.Math_max (Js.Int 0) (Js.Number_sub (Js.Int n) (Js.Int 4))
  = Js.Int (Z.max 0 (n - 4)).
Proof.
  intros Hn.
  assert (Hcases : Js.safe (n - 4)
                   \/ n = - Js.max_exact \/ n = - Js.max_exact + 1
                   \/ n = - Js.max_exact + 2 \/ n = - Js.max_exact + 3).
  { unfold Js.safe in *. change Js.max_exact with 9007199254740992 in *. lia. }
  destruct Hcases as [Hs|[->|[->|[->| ->]]]];
    [by rewrite Number_sub_safe | vm_compute; reflexivity ..].
Qed.

(** ** Strings *)

Lemma substring_prefix (s : Js.jsstring) (n : Z) :
  0 <= n <= Js.str_length s ->
  Js.substring s 0 n = take (Z.to_nat n) s.
Proof.
  intros Hn. unfold Js.substring, Js.clamp.
  rewrite (Z.max_l 0 0) by lia. rewrite (Z.min_l 0) by lia.
  rewrite (Z.max_l n 0) by lia. rewrite (Z.min_l n) by lia.
  rewrite (Z.min_l 0 n) by lia. rewrite (Z.max_r 0 n) by lia.
  rewrite Z.sub_0_r. reflexivity.
Qed.

Lemma substring_from_suffix (s : Js.jsstring) (i : Z) :
  0 <= i <= Js.str_length s ->
  Js.substring_from s i = drop (Z.to_nat i) s.
Proof.
  intros Hi. unfold Js.substring_from, Js.substring, Js.clamp.
  set (len := Js.str_length s) in *.
  rewrite (Z.max_l i 0) by lia. rewrite (Z.min_l i len) by lia.
  rewrite (Z.max_l len 0) by lia. rewrite (Z.min_l len len) by lia.
  rewrite (Z.min_l i len) by lia. rewrite (Z.max_r i len) by lia.
  apply take_ge. rewrite length_drop. unfold len, Js.str_length. lia.
Qed.

Lemma shrinkAddress_long (address : Js.jsstring) :
  34 < Js.str_length address ->
  shrinkAddress address
  = take 17 address ++ ellipsis ++ drop (length address - 17) address.
Proof.
  intros Hlen. unfold shrinkAddress.
  destruct (Z.leb_spec (Js.str_length address) 34) as [Hle|_]; [lia|].
  rewrite substring_prefix by lia.
  rewrite substring_from_suffix by lia.
  unfold Js.str_length in *.
  replace (Z.to_nat (Z.of_nat (length address) - 17))
    with (length address - 17)%nat by lia.
  reflexivity.
Qed.

(** C10: an address of at most 34 code units is returned unchanged; a longer
    one becomes its first 17 code units, three dots and its last 17 code
    units, 37 code units in all, so that inputs of length 35, 36 and 37 do not
    get shorter. *)
Theorem shrinkAddress_spec (address : Js.jsstring) :
  (Js.str_length address <= 34 -> shrinkAddress address = address)
  /\ (34 < Js.str_length address ->
      shrinkAddress address
      = take 17 address ++ Js.of_string "..."
          ++ drop (length address - 17) address
      /\ length (take 17 address) = 17%nat
      /\ length (drop (length address - 17) address) = 17%nat
      /\ Js.str_length (shrinkAddress address) = 37
      /\ (Js.str_length address <= 37 ->
          Js.str_length address <= Js.str_length (shrinkAddress address))).
Proof.
  split.
  - intros Hle. unfold shrinkAddress.
    destruct (Z.leb_spec (Js.str_length address) 34); [reflexivity | lia].
  - intros Hlt.
    assert (Hn : (34 < length address)%nat) by (unfold Js.str_length in Hlt; lia).
    assert (H1 : length (take 17 address) = 17%nat)
      by (rewrite length_take; lia).
    assert (H2 : length (drop (length address - 17) address) = 17%nat)
      by (rewrite length_drop; lia).
    assert (H3 : Js.str_length (shrinkAddress address) = 37).
    { rewrite shrinkAddress_long by assumption. unfold Js.str_length.
      rewrite !length_app, H1, H2. reflexivity. }
    repeat split; try assumption.
    + apply shrinkAddress_long; assumption.
    + intros Hle. rewrite H3. assumption.
Qed.

Lemma shrinkAddress_spec_witness :
  Js.str_length address35 = 35
  /\ shrinkAddress address35
     = Js.of_string "Ae2tdPwUPEZFRbyhz...cpfC2CumGzNkFBN2L"
  /\ Js.str_length (shrinkAddress address35) = 37.
Proof.
  split; [reflexivity|].
  destruct (shrinkAddress_spec address35) as [_ Hlong].
  destruct Hlong as (Heq & _ & _ & Hlen & _); [vm_compute; reflexivity|].
  split; [rewrite Heq; reflexivity | exact Hlen].
Defined.

(** ** The object heap *)

Lemma view_Forall2 h es raw :
  view h es = Some raw <-> Forall2 (fun e r => deref h e = Some r) es raw.
Proof. apply mapM_Some. Qed.

Lemma deref_app h ext e r :
  deref h e = Some r -> deref (h ++ ext) e = Some r.
Proof.
  destruct e as [| |l]; simpl; try done.
  destruct (h !! l) as [x|] eqn:Hl; simpl; [|done].
  intros ?. by rewrite (lookup_app_l_Some _ _ _ _ Hl).
Qed.

Lemma view_app h ext es raw :
  view h es = Some raw -> view (h ++ ext) es = Some raw.
Proof.
  rewrite !view_Forall2. intros H.
  eapply Forall2_impl; [exact H|]. intros e r. apply deref_app.
Qed.

Lemma entry_within_weaken lo lo' hi hi' e :
  (lo' <= lo)%nat -> (hi <= hi')%nat ->
  entry_within lo hi e -> entry_within lo' hi' e.
Proof. destruct e; simpl; lia. Qed.

Lemma allocated_app h ext es : allocated h es -> allocated (h ++ ext) es.
Proof.
  unfold allocated. intros H. eapply Forall_impl; [exact H|]. intros e.
  apply entry_within_weaken; [lia | rewrite length_app; lia].
Qed.

Lemma allocated_view h es : allocated h es <-> is_Some (view h es).
Proof.
  unfold allocated. induction es as [|e es IH]; simpl.
  - split; [intros _; by eexists | intros _; constructor].
  - rewrite Forall_cons, IH. unfold view. simpl.
    destruct e as [| |l]; simpl.
    + destruct (mapM (deref h) es); simpl; split;
        [intros [_ [? ?]]; by eexists | intros _; split; [done | by eexists]
        | intros [_ [? ?]]; done | intros [? ?]; done].
    + destruct (mapM (deref h) es); simpl; split;
        [intros [_ [? ?]]; by eexists | intros _; split; [done | by eexists]
        | intros [_ [? ?]]; done | intros [? ?]; done].
    + destruct (h !! l) as [x|] eqn:Hl; simpl.
      * apply lookup_lt_Some in Hl.
        destruct (mapM (deref h) es); simpl; split;
          [intros _; by eexists | intros _; split; [lia | by eexists]
          | intros [_ [? ?]]; done | intros [? ?]; done].
      * apply lookup_ge_None in Hl.
        split; [intros [? _]; lia | intros [? ?]; done].
Qed.

(** Decoding a response extends the heap, yields an array that reads back as
    the response, and every reference in it is to a new object. *)
Lemma alloc_inv raw : forall h h' es,
  alloc raw h = (h', es) ->
  exists ext,
    h' = h ++ ext
    /\ view h' es = Some raw
    /\ Forall (entry_within (length h) (length h')) es.
Proof.
  induction raw as [|r raw IH]; intros h h' es Halloc; simpl in Halloc.
  - inversion Halloc; subst. exists []. rewrite app_nil_r. by repeat split.
  - destruct r as [| |e].
    + destruct (alloc raw h) as [h1 es1] eqn:H1. inversion Halloc; subst.
      destruct (IH _ _ _ H1) as (ext & -> & Hv & Hf).
      exists ext. repeat split; [|by constructor].
      unfold view in *. simpl. by rewrite Hv.
    + destruct (alloc raw h) as [h1 es1] eqn:H1. inversion Halloc; subst.
      destruct (IH _ _ _ H1) as (ext & -> & Hv & Hf).
      exists ext. repeat split; [|by constructor].
      unfold view in *. simpl. by rewrite Hv.
    + destruct (alloc raw (h ++ [e])) as [h1 es1] eqn:H1.
      inversion Halloc; subst.
      destruct (IH _ _ _ H1) as (ext & -> & Hv & Hf).
      exists ([e] ++ ext). rewrite app_assoc. repeat split.
      * unfold view in *. simpl. rewrite Hv.
        rewrite <- app_assoc. simpl.
        by rewrite (list_lookup_middle h ext e (length h) eq_refl).
      * constructor.
        -- simpl. rewrite !length_app. simpl. lia.
        -- eapply Forall_impl; [exact Hf|]. intros x.
           apply entry_within_weaken; [rewrite length_app; lia | lia].
Qed.

Lemma alloc_allocated raw h h' es :
  alloc raw h = (h', es) -> allocated h' es.
Proof.
  intros H. destruct (alloc_inv _ _ _ _ H) as (ext & -> & Hv & _).
  apply allocated_view. by eexists.
Qed.

(** ** Range fetch handlers *)

(** Case analysis of a settling handler: which handler waits, whether the
    outcome is a response, and what decoding it allocates. *)
Ltac complete_cases k outcome s :=
  unfold complete, settle;
  destruct outcome as [?raw|];
  [destruct (alloc _ (heap s)) as [?h ?es] eqn:?Halloc|];
  destruct k; simpl.

(** The synchronous part of a handler touches the request object only. *)
Lemma fetchEpochsInRange_frame params s :
  fst (fetchEpochsInRange params s)
  = set_getEpochsInRangeQuery
      (GraphQLRequest_execute (getEpochsInRangeQuery s)) s
  /\ snd (fetchEpochsInRange params s) = params.
Proof. done. Qed.

(** A handler that receives a result stores the decoded array, which reads
    back as the response, in its own slot and leaves the other slot alone;
    the array is the one the gateway keeps as its snapshot. *)
Lemma complete_latest_Some raw s :
  let s' := complete AfterFetchLatestEpochs (Some raw) s in
  view (heap s') (latestEpochsRawData s') = Some raw
  /\ browsedEpochsRawData s' = browsedEpochsRawData s
  /\ result (getEpochsInRangeQuery s')
     = Some {| epochs := latestEpochsRawData s' |}
  /\ exists ext, heap s' = heap s ++ ext.
Proof.
  unfold complete, settle.
  destruct (alloc raw (heap s)) as [h es] eqn:Ha. simpl.
  destruct (alloc_inv _ _ _ _ Ha) as (ext & -> & Hv & _).
  repeat split; [done | by exists ext].
Qed.

Lemma complete_browsed_Some raw s :
  let s' := complete AfterBrowseEpochs (Some raw) s in
  view (heap s') (browsedEpochsRawData s') = Some raw
  /\ latestEpochsRawData s' = latestEpochsRawData s
  /\ result (getEpochsInRangeQuery s')
     = Some {| epochs := browsedEpochsRawData s' |}
  /\ exists ext, heap s' = heap s ++ ext.
Proof.
  unfold complete, settle.
  destruct (alloc raw (heap s)) as [h es] eqn:Ha. simpl.
  destruct (alloc_inv _ _ _ _ Ha) as (ext & -> & Hv & _).
  repeat split; [done | by exists ext].
Qed.

(** C4: with [currentEpoch = n] (any whole-valued double),
    [fetchLatestEpochs] calls the gateway once, with [upper = n] and
    [lower = Math.max(0, n - 4)] as doubles compute it; wherever doubles
    are exact ([|n| <= 2^53]) that is the whole number [max(0, n - 4)], five
    epochs when [n >= 4]; when the call resolves to a result, the latest slot
    holds the returned sequence in full. *)
Theorem fetchLatestEpochs_request (s : EpochsStore) (n : Z) :
  currentEpoch (networkInfo s) = Js.num (Js.Int n) ->
  Js.is_double (Js.Int n) ->
  request (snd (fetchLatestEpochs s))
  = {| lower := Js.num (Js.Math_max (Js.Int 0)
                          (Js.Number_sub (Js.Int n) (Js.Int 4)));
       upper := Js.num (Js.Int n) |}
  /\ (Js.safe n ->
      request (snd (fetchLatestEpochs s))
      = {| lower := Js.num (Js.Int (Z.max 0 (n - 4)));
           upper := Js.num (Js.Int n) |}
      /\ (4 <= n -> n - Z.max 0 (n - 4) + 1 = 5))
  /\ continuation (snd (fetchLatestEpochs s)) = AfterFetchLatestEpochs
  /\ isExecuting (getEpochsInRangeQuery (fst (fetchLatestEpochs s))) = true
  /\ snd (trigger fetchLatestEpochs_action s) = [snd (fetchLatestEpochs s)]
  /\ forall raw s',
       let s'' := complete AfterFetchLatestEpochs (Some raw) s' in
       view (heap s'') (latestEpochsRawData s'') = Some raw
       /\ browsedEpochsRawData s'' = browsedEpochsRawData s'.
Proof.
  intros Hn _.
  assert (Hreq : request (snd (fetchLatestEpochs s))
                 = {| lower := Js.num (Js.Math_max (Js.Int 0)
                                         (Js.Number_sub (Js.Int n) (Js.Int 4)));
                      upper := Js.num (Js.Int n) |}).
  { unfold fetchLatestEpochs, fetchEpochsInRange, Js.sub. cbn [snd request].
    by rewrite Hn. }
  split; [exact Hreq|]. split.
  - intros Hsafe. split; [by rewrite Hreq, clamp_sub4_safe | lia].
  - split; [reflexivity|]. split; [reflexivity|]. split; [reflexivity|].
    intros raw s'. split; apply (complete_latest_Some raw s').
Qed.

Lemma fetchLatestEpochs_request_witness :
  let s := new_EpochsStore (network 7 (Js.num (Js.Int 10)) false)
                           {| latestBlocks := [] |} in
  request (snd (fetchLatestEpochs s))
  = {| lower := Js.num (Js.Int 6); upper := Js.num (Js.Int 10) |}.
Proof.
  exact (proj1 (proj1 (proj2 (fetchLatestEpochs_request
    (new_EpochsStore (network 7 (Js.num (Js.Int 10)) false)
                     {| latestBlocks := [] |}) 10 eq_refl eq_refl))
    ltac:(unfold Js.safe; change Js.max_exact with 9007199254740992; lia))).
Defined.

(** C5: [browseEpochs({page, perPage})] calls the gateway once, with
    [upper = page * perPage] and [lower = upper - perPage] as doubles compute
    them, whatever [page] is; wherever doubles are exact these are the whole numbers [p * q] and
    [p * q - q]; when the call resolves to a result, the browsed slot holds
    the returned sequence in full. *)
Theorem browseEpochs_request (s : EpochsStore) (params : BrowseEpochsParams) :
  Js.is_double (page params) ->
  Js.is_double (perPage params) ->
  request (snd (browseEpochs params s))
  = {| lower := Js.num (Js.Number_sub
                          (Js.Number_mul (page params) (perPage params))
                          (perPage params));
       upper := Js.num (Js.Number_mul (page params) (perPage params)) |}
  /\ (forall p q : Z,
        page params = Js.Int p -> perPage params = Js.Int q ->
        Js.safe (p * q) -> Js.safe (p * q - q) ->
        request (snd (browseEpochs params s))
        = {| lower := Js.num (Js.Int (p * q - q));
             upper := Js.num (Js.Int (p * q)) |})
  /\ continuation (snd (browseEpochs params s)) = AfterBrowseEpochs
  /\ isExecuting (getEpochsInRangeQuery (fst (browseEpochs params s))) = true
  /\ snd (trigger (browseEpochs_action params) s)
     = [snd (browseEpochs params s)]
  /\ forall raw s',
       let s'' := complete AfterBrowseEpochs (Some raw) s' in
       view (heap s'') (browsedEpochsRawData s'') = Some raw
       /\ latestEpochsRawData s'' = latestEpochsRawData s'.
Proof.
  assert (Hreq : request (snd (browseEpochs params s))
                 = {| lower := Js.num (Js.Number_sub
                                         (Js.Number_mul (page params)
                                            (perPage params))
                                         (perPage params));
                      upper := Js.num (Js.Number_mul (page params)
                                         (perPage params)) |})
    by reflexivity.
  intros _ _. split; [exact Hreq|]. split.
  - intros p q Hp Hq Hmul Hsub. rewrite Hreq, Hp, Hq.
    by rewrite Number_mul_safe, Number_sub_safe.
  - split; [reflexivity|]. split; [reflexivity|]. split; [reflexivity|].
    intros raw s'. split; apply (complete_browsed_Some raw s').
Qed.

Lemma browseEpochs_request_witness :
  let s := new_EpochsStore (network 7 (Js.num (Js.Int 10)) false)
                           {| latestBlocks := [] |} in
  request (snd (browseEpochs {| page := Js.Int 0; perPage := Js.Int 10 |} s))
  = {| lower := Js.num (Js.Int (-10)); upper := Js.num (Js.Int 0) |}.
Proof.
  exact (proj1 (proj2 (browseEpochs_request
    (new_EpochsStore (network 7 (Js.num (Js.Int 10)) false)
                     {| latestBlocks := [] |})
    {| page := Js.Int 0; perPage := Js.Int 10 |} eq_refl eq_refl))
    0 10 eq_refl eq_refl
    ltac:(unfold Js.safe; change Js.max_exact with 9007199254740992; lia)
    ltac:(unfold Js.safe; change Js.max_exact with 9007199254740992; lia)).
Defined.

(** C6: when the gateway resolves to [null], the handler that was waiting
    ends without touching anything: both slots, the heap and the watermark
    are what they were before the call, only the gateway's own request
    object changes, and no further gateway call is made. *)
Theorem null_result_keeps_slots (s : EpochsStore) :
  (forall params,
      let '(s1, p) := browseEpochs params s in
      let s2 := complete (continuation p) None s1 in
      browsedEpochsRawData s2 = browsedEpochsRawData s
      /\ latestEpochsRawData s2 = latestEpochsRawData s
      /\ heap s2 = heap s
      /\ lastFetchedAtBlockHeight s2 = lastFetchedAtBlockHeight s)
  /\ (let '(s1, p) := fetchLatestEpochs s in
      let s2 := complete (continuation p) None s1 in
      browsedEpochsRawData s2 = browsedEpochsRawData s
      /\ latestEpochsRawData s2 = latestEpochsRawData s
      /\ heap s2 = heap s
      /\ lastFetchedAtBlockHeight s2 = lastFetchedAtBlockHeight s)
  /\ (forall k,
      resume k None s = s
      /\ complete k None s
         = set_getEpochsInRangeQuery
             (GraphQLRequest_settled None (getEpochsInRangeQuery s)) s
      /\ snd (step (Settled k None) s) = []).
Proof.
  repeat split; try done. all: by destruct k.
Qed.

(** C9: [fetchLatestEpochs] does not check [currentEpoch]: when it is
    [undefined] the gateway is still called, with [upper = undefined] and
    [lower = NaN]; in the same state the polling reaction, which has the
    [isNumber] guard, does nothing. *)
Theorem fetchLatestEpochs_undefined (s : EpochsStore) :
  currentEpoch (networkInfo s) = Js.undefined ->
  request (snd (fetchLatestEpochs s))
  = {| lower := Js.num Js.NaN; upper := Js.undefined |}
  /\ Js.Math_max (Js.Int 0) (Js.sub Js.undefined (Js.num (Js.Int 4))) = Js.NaN
  /\ isExecuting (getEpochsInRangeQuery (fst (fetchLatestEpochs s))) = true
  /\ snd (trigger fetchLatestEpochs_action s) = [snd (fetchLatestEpochs s)]
  /\ fetchLatestEpochsOnBlockHeightChange s = (s, []).
Proof.
  intros Hu.
  unfold fetchLatestEpochsOnBlockHeightChange, skipsFetch, trigger,
    fetchLatestEpochs.
  simpl. rewrite Hu. simpl. done.
Qed.

Lemma fetchLatestEpochs_undefined_witness :
  let s := new_EpochsStore (network 7 Js.undefined false)
                           {| latestBlocks := [] |} in
  length (snd (trigger fetchLatestEpochs_action s)) = 1%nat
  /\ request (snd (fetchLatestEpochs s))
     = {| lower := Js.num Js.NaN; upper := Js.undefined |}.
Proof.
  pose proof (fetchLatestEpochs_undefined
    (new_EpochsStore (network 7 Js.undefined false) {| latestBlocks := [] |})
    eq_refl) as (Hreq & _ & _ & Htrig & _).
  split; [rewrite Htrig; reflexivity | exact Hreq].
Defined.

(** ** Computed getters *)

Section DerivationProperties.

Context {IEpochOverview : Type}.
Variable transformer : EpochOverviewFragment -> NetworkInfoStore -> IEpochOverview.

Lemma transformEpochs_view (s : EpochsStore) (es : list Entry) :
  forall raw,
    view (heap s) es = Some raw ->
    transformEpochs transformer s es
    = Some (map (fun e => transformer e (networkInfo s)) (nonNullRecords raw)).
Proof.
  unfold transformEpochs, view.
  induction es as [|e es IH]; intros raw Hv; simpl in Hv.
  - inversion Hv; subst. reflexivity.
  - destruct (deref (heap s) e) as [r|] eqn:Hd; simpl in Hv; [|done].
    destruct (mapM (deref (heap s)) es) as [raw'|] eqn:Hes; simpl in Hv;
      [|done].
    inversion Hv; subst. specialize (IH _ eq_refl).
    destruct e as [| |l]; simpl in Hd.
    + inversion Hd; subst. simpl. exact IH.
    + inversion Hd; subst. simpl. exact IH.
    + destruct (heap s !! l) as [x|] eqn:Hl; simpl in Hd; [|done].
      inversion Hd; subst. simpl. rewrite Hl. simpl. rewrite IH. reflexivity.
Qed.

End DerivationProperties.

(** C7: whatever raw sequence a slot holds, [null] and [undefined] members
    included, [browsedEpochs] and [latestEpochs] are defined and are the
    Transformer applied to the non-null members, in order. *)
Theorem getters_skip_null {IEpochOverview : Type}
    (transformer : EpochOverviewFragment -> NetworkInfoStore -> IEpochOverview)
    (s : EpochsStore) (rawBrowsed rawLatest : list RawEntry) :
  view (heap s) (browsedEpochsRawData s) = Some rawBrowsed ->
  view (heap s) (latestEpochsRawData s) = Some rawLatest ->
  browsedEpochs transformer s
  = Some (map (fun e => transformer e (networkInfo s))
              (nonNullRecords rawBrowsed))
  /\ latestEpochs transformer s
     = Some (map (fun e => transformer e (networkInfo s))
                 (nonNullRecords rawLatest)).
Proof.
  intros Hb Hl. unfold browsedEpochs, latestEpochs.
  split; apply transformEpochs_view; assumption.
Qed.

Lemma getters_skip_null_witness :
  let s := set_browsedEpochsRawData [ERef 0%nat; ENull; EUndefined; ERef 1%nat]
             (set_latestEpochsRawData [EUndefined; ERef 1%nat]
                (set_heap [epoch 10 100; epoch 9 90]
                   (new_EpochsStore (network 7 (Js.num (Js.Int 10)) false)
                                    {| latestBlocks := [] |}))) in
  browsedEpochs (fun e _ => (number e, lastBlockTime e)) s
  = Some [(10, 100); (9, 90)]
  /\ latestEpochs (fun e _ => (number e, lastBlockTime e)) s
     = Some [(9, 90)].
Proof.
  exact (getters_skip_null (fun e _ => (number e, lastBlockTime e))
    (set_browsedEpochsRawData [ERef 0%nat; ENull; EUndefined; ERef 1%nat]
       (set_latestEpochsRawData [EUndefined; ERef 1%nat]
          (set_heap [epoch 10 100; epoch 9 90]
             (new_EpochsStore (network 7 (Js.num (Js.Int 10)) false)
                              {| latestBlocks := [] |}))))
    [RObj (epoch 10 100); RNull; RUndefined; RObj (epoch 9 90)]
    [RUndefined; RObj (epoch 9 90)] eq_refl eq_refl).
Defined.

(** ** Well-formedness is invariant *)

Lemma wf_new ni b : wf (new_EpochsStore ni b).
Proof. repeat split; constructor. Qed.

Lemma wf_trigger a s : wf s -> wf (fst (trigger a s)).
Proof. destruct a; simpl; done. Qed.

Lemma wf_complete k outcome s : wf s -> wf (complete k outcome s).
Proof.
  intros (Hb & Hl & Hr). unfold complete, settle.
  destruct outcome as [raw|].
  - destruct (alloc raw (heap s)) as [h es] eqn:Ha.
    pose proof (alloc_allocated _ _ _ _ Ha) as Hes.
    destruct (alloc_inv _ _ _ _ Ha) as (ext & -> & _ & _).
    destruct k; simpl; repeat split; simpl;
      auto using allocated_app.
  - destruct k; simpl; repeat split; simpl; try done.
Qed.

Lemma wf_sync s : wf s -> wf (syncLatestEpochWithLatestBlockDate s).
Proof.
  intros Hwf. unfold syncLatestEpochWithLatestBlockDate.
  destruct (head (latestBlocks (blocks s))) as [b|]; [|done].
  destruct (result (getEpochsInRangeQuery s)) as [r|] eqn:Hr; simpl; [|done].
  destruct (epochs r) as [|[| |l] rest] eqn:He; try done.
  destruct (heap s !! l) as [e|]; [|done].
  destruct (negb _); [|done].
  destruct Hwf as (Hb & Hl & Hq). rewrite Hr in Hq.
  unfold wf, allocated in *. simpl. rewrite Hr, length_insert. done.
Qed.

Lemma wf_step ev s : wf s -> wf (fst (step ev s)).
Proof.
  intros Hwf. destruct ev as [a|k outcome|ni|b| |]; simpl.
  - by apply wf_trigger.
  - by apply wf_complete.
  - done.
  - done.
  - destruct (latestEpochsReactionsRunning s); [|done].
    unfold fetchLatestEpochsOnBlockHeightChange.
    destruct (skipsFetch s); [done|]. by apply wf_trigger.
  - destruct (latestEpochsReactionsRunning s); [|done]. by apply wf_sync.
Qed.

Lemma wf_run evs : forall s, wf s -> wf (fst (run evs s)).
Proof.
  induction evs as [|ev evs IH]; intros s Hwf; simpl; [done|].
  destruct (step ev s) as [s1 ps1] eqn:Hs.
  specialize (IH s1). destruct (run evs s1) as [s2 ps2]. simpl in *.
  apply IH. replace s1 with (fst (step ev s)) by (by rewrite Hs).
  by apply wf_step.
Qed.

(** In every state the store can reach both slots read back as some raw
    sequence, so the getters never meet a dangling reference. *)
Lemma reachable_views s :
  reachable s ->
  is_Some (view (heap s) (browsedEpochsRawData s))
  /\ is_Some (view (heap s) (latestEpochsRawData s)).
Proof.
  intros (ni & b & evs & <-).
  destruct (wf_run evs _ (wf_new ni b)) as (Hb & Hl & _).
  split; by apply allocated_view.
Qed.

(** ** The lag-correction reaction *)

Lemma set_lastBlockTime_id e : set_lastBlockTime (lastBlockTime e) e = e.
Proof. by destruct e. Qed.

(** What the reaction does once it has found a block and a first entry in
    the gateway's result snapshot. *)
Lemma sync_patch s r l rest b bs e :
  result (getEpochsInRangeQuery s) = Some r ->
  epochs r = ERef l :: rest ->
  latestBlocks (blocks s) = b :: bs ->
  heap s !! l = Some e ->
  syncLatestEpochWithLatestBlockDate s
  = set_heap (<[l := set_lastBlockTime (createdAt b) e]> (heap s)) s.
Proof.
  intros Hr He Hb Hl. unfold syncLatestEpochWithLatestBlockDate.
  rewrite Hb, Hr. simpl. rewrite He, Hl.
  destruct (Z.eqb_spec (createdAt b) (lastBlockTime e)) as [Heq|Hne]; simpl.
  - rewrite Heq, set_lastBlockTime_id, list_insert_id by done.
    by destruct s.
  - reflexivity.
Qed.

(** Without a snapshot the reaction does nothing, whatever the slots hold. *)
Lemma sync_no_snapshot s :
  result (getEpochsInRangeQuery s) = None ->
  syncLatestEpochWithLatestBlockDate s = s.
Proof.
  intros Hr. unfold syncLatestEpochWithLatestBlockDate. rewrite Hr. simpl.
  by destruct (head (latestBlocks (blocks s))).
Qed.

(** When the snapshot is the latest-epochs array itself, the reaction does
    patch the first latest epoch. *)
Lemma sync_patches_latest_when_aliased s r l rest b bs e :
  result (getEpochsInRangeQuery s) = Some r ->
  epochs r = latestEpochsRawData s ->
  latestEpochsRawData s = ERef l :: rest ->
  latestBlocks (blocks s) = b :: bs ->
  heap s !! l = Some e ->
  let s' := syncLatestEpochWithLatestBlockDate s in
  latestEpochsRawData s' = ERef l :: rest
  /\ lastBlockTime <$> heap s' !! l = Some (createdAt b).
Proof.
  intros Hr Ha Hl Hb He. simpl.
  rewrite (sync_patch s r l rest b bs e) by congruence. simpl.
  split; [done|].
  rewrite list_lookup_insert_eq by (by eapply lookup_lt_Some). done.
Qed.

(** C8: the reaction takes its target from the gateway's result snapshot.
    It updates the object the snapshot's first entry refers to and nothing
    else: the slots keep their arrays, every other object keeps its fields,
    so a latest epoch changes only if it is that very object; when the
    snapshot is the browsed array, the target is the first browsed epoch. *)
Theorem sync_targets_query_result
    (s : EpochsStore) (r : GetEpochsInRangeQuery) (l : loc)
    (rest : list Entry) (b : BlockOverview) (bs : list BlockOverview)
    (e : EpochOverviewFragment) :
  result (getEpochsInRangeQuery s) = Some r ->
  epochs r = ERef l :: rest ->
  latestBlocks (blocks s) = b :: bs ->
  heap s !! l = Some e ->
  let s' := syncLatestEpochWithLatestBlockDate s in
  heap s' !! l = Some (set_lastBlockTime (createdAt b) e)
  /\ (forall l' : loc, l' <> l -> heap s' !! l' = heap s !! l')
  /\ latestEpochsRawData s' = latestEpochsRawData s
  /\ browsedEpochsRawData s' = browsedEpochsRawData s
  /\ getEpochsInRangeQuery s' = getEpochsInRangeQuery s
  /\ (forall (i : nat) (l' : loc),
        latestEpochsRawData s !! i = Some (ERef l') ->
        heap s' !! l' <> heap s !! l' -> l' = l)
  /\ (epochs r = browsedEpochsRawData s ->
      head (browsedEpochsRawData s') = Some (ERef l)).
Proof.
  intros Hr He Hb Hl. simpl.
  rewrite (sync_patch s r l rest b bs e) by assumption. simpl.
  assert (Hother : forall l' : loc, l' <> l ->
            <[l := set_lastBlockTime (createdAt b) e]> (heap s) !! l'
            = heap s !! l').
  { intros l' Hne. by apply list_lookup_insert_ne. }
  repeat split; try done.
  - apply list_lookup_insert_eq. by eapply lookup_lt_Some.
  - intros i l' _ Hchanged. destruct (decide (l' = l)) as [|Hne]; [done|].
    exfalso. apply Hchanged. by apply Hother.
  - intros <-. by rewrite He.
Qed.

Lemma sync_targets_query_result_witness :
  let s' := syncLatestEpochWithLatestBlockDate scenario_browsed in
  head (browsedEpochsRawData scenario_browsed) = Some (ERef 2%nat)
  /\ heap scenario_browsed !! 2%nat = Some (epoch 2 30)
  /\ heap s' !! 2%nat = Some (epoch 2 200)
  /\ latestEpochsRawData s' = [ERef 0%nat; ERef 1%nat].
Proof.
  pose proof (sync_targets_query_result scenario_browsed
    {| epochs := [ERef 2%nat; ERef 3%nat; ERef 4%nat] |} 2%nat
    [ERef 3%nat; ERef 4%nat] (block 200) [] (epoch 2 30)
    eq_refl eq_refl eq_refl eq_refl) as (Hl & _ & Hlatest & _).
  split; [reflexivity|]. split; [reflexivity|]. split; [exact Hl|].
  rewrite Hlatest. reflexivity.
Defined.

(** Updating an object allocated after [h] is invisible through an array
    whose references all predate it. *)
Lemma view_insert_fresh h ext l x es :
  allocated h es -> (length h <= l)%nat ->
  view (<[l := x]> (h ++ ext)) es = view h es.
Proof.
  intros Hes Hl. unfold view. apply Forall_mapM_ext.
  eapply Forall_impl; [exact Hes|]. intros [| |l'] Hin; simpl in *; try done.
  rewrite list_lookup_insert_ne by lia.
  by rewrite lookup_app_l by lia.
Qed.

(** After any page has been browsed successfully (first member a record),
    the reaction patches that page's first epoch and the latest epochs read
    exactly as they did before the page was requested. *)
Lemma sync_after_browse_frame s0 e raw b bs :
  wf s0 ->
  latestBlocks (blocks s0) = b :: bs ->
  let s := complete AfterBrowseEpochs (Some (RObj e :: raw)) s0 in
  let s' := syncLatestEpochWithLatestBlockDate s in
  view (heap s') (latestEpochsRawData s')
  = view (heap s0) (latestEpochsRawData s0)
  /\ head (browsedEpochsRawData s') = Some (ERef (length (heap s0)))
  /\ heap s' !! length (heap s0) = Some (set_lastBlockTime (createdAt b) e).
Proof.
  intros (_ & Hlatest & _) Hb. simpl.
  unfold complete, settle. simpl.
  destruct (alloc raw (heap s0 ++ [e])) as [h es] eqn:Ha. simpl.
  destruct (alloc_inv _ _ _ _ Ha) as (ext & -> & _ & _).
  set (s := set_browsedEpochsRawData _ _).
  assert (Hl : heap s !! length (heap s0) = Some e).
  { subst s. simpl. rewrite <- app_assoc. simpl.
    by rewrite (list_lookup_middle (heap s0) ext e _ eq_refl). }
  rewrite (sync_patch s {| epochs := ERef (length (heap s0)) :: es |}
             (length (heap s0)) es b bs e) by done.
  subst s. simpl. repeat split.
  - rewrite <- app_assoc. by apply view_insert_fresh.
  - apply list_lookup_insert_eq. by eapply lookup_lt_Some.
Qed.

(** The scenario is a run of the store from its initial state: polling is
    started, the latest epochs are fetched and arrive, then a page is browsed
    and arrives. *)
Lemma scenario_browsed_reachable : reachable scenario_browsed.
Proof.
  exists (network 7 (Js.num (Js.Int 10)) false), {| latestBlocks := [block 200] |}.
  exists [UserAction fetchLatestEpochs_action;
          Settled AfterFetchLatestEpochs
            (Some [RObj (epoch 10 100); RObj (epoch 9 90)]);
          UserAction
            (browseEpochs_action {| page := Js.Int 1; perPage := Js.Int 2 |});
          Settled AfterBrowseEpochs
            (Some [RObj (epoch 2 30); RObj (epoch 1 20); RObj (epoch 0 10)])].
  reflexivity.
Qed.

(** C1, on the store of the scenario: the latest block was created at 200,
    the first latest epoch has [lastBlockTime = 100], and after the reaction
    it still has; the epoch that was patched is the first browsed one. *)
Theorem sync_misses_latest_after_browse :
  let s := scenario_browsed in
  let s' := syncLatestEpochWithLatestBlockDate s in
  head (latestBlocks (blocks s)) = Some (block 200)
  /\ view (heap s) (latestEpochsRawData s)
     = Some [RObj (epoch 10 100); RObj (epoch 9 90)]
  /\ view (heap s') (latestEpochsRawData s')
     = Some [RObj (epoch 10 100); RObj (epoch 9 90)]
  /\ view (heap s) (browsedEpochsRawData s)
     = Some [RObj (epoch 2 30); RObj (epoch 1 20); RObj (epoch 0 10)]
  /\ view (heap s') (browsedEpochsRawData s')
     = Some [RObj (epoch 2 200); RObj (epoch 1 20); RObj (epoch 0 10)].
Proof. vm_compute. repeat split. Qed.

(** ** The polling reaction and its watermark *)

(** The reaction makes at most one gateway call. *)
Lemma reaction_at_most_one s :
  (length (snd (fetchLatestEpochsOnBlockHeightChange s)) <= 1)%nat.
Proof.
  unfold fetchLatestEpochsOnBlockHeightChange.
  destruct (skipsFetch s); simpl; lia.
Qed.

(** When it fires, the watermark is the observed height and nothing that
    Network Info reports has changed. *)
Lemma reaction_fired s :
  snd (fetchLatestEpochsOnBlockHeightChange s) <> [] ->
  lastFetchedAtBlockHeight (fst (fetchLatestEpochsOnBlockHeightChange s))
  = blockHeight (networkInfo s)
  /\ networkInfo (fst (fetchLatestEpochsOnBlockHeightChange s)) = networkInfo s.
Proof.
  unfold fetchLatestEpochsOnBlockHeightChange.
  destruct (skipsFetch s); simpl; done.
Qed.

(** With the watermark at the observed height the reaction returns at once. *)
Lemma reaction_skips_at_watermark s :
  lastFetchedAtBlockHeight s = blockHeight (networkInfo s) ->
  fetchLatestEpochsOnBlockHeightChange s = (s, []).
Proof.
  intros Heq. unfold fetchLatestEpochsOnBlockHeightChange, skipsFetch.
  rewrite Heq, Z.eqb_refl, !orb_true_r. reflexivity.
Qed.

(** No handler continuation writes the watermark. *)
Lemma complete_watermark k outcome s :
  lastFetchedAtBlockHeight (complete k outcome s) = lastFetchedAtBlockHeight s.
Proof. by complete_cases k outcome s. Qed.

Lemma sync_watermark s :
  lastFetchedAtBlockHeight (syncLatestEpochWithLatestBlockDate s)
  = lastFetchedAtBlockHeight s
  /\ networkInfo (syncLatestEpochWithLatestBlockDate s) = networkInfo s.
Proof.
  unfold syncLatestEpochWithLatestBlockDate.
  destruct (head (latestBlocks (blocks s))) as [b|]; [|done].
  destruct (result (getEpochsInRangeQuery s)) as [r|]; simpl; [|done].
  destruct (epochs r) as [|[| |l] rest]; try done.
  destruct (heap s !! l) as [e|]; [|done].
  by destruct (negb _).
Qed.

Lemma complete_networkInfo k outcome s :
  networkInfo (complete k outcome s) = networkInfo s.
Proof. by complete_cases k outcome s. Qed.

Lemma complete_blocks k outcome s :
  blocks (complete k outcome s) = blocks s.
Proof. by complete_cases k outcome s. Qed.

(** The watermark is written by the polling reaction only, and then with the
    observed block height. *)
Lemma step_watermark ev s :
  lastFetchedAtBlockHeight (fst (step ev s)) = lastFetchedAtBlockHeight s
  \/ (ev = ReactFetch
      /\ lastFetchedAtBlockHeight (fst (step ev s))
         = blockHeight (networkInfo s)).
Proof.
  destruct ev as [a|k outcome|ni|b| |]; simpl.
  - left. by destruct a.
  - left. apply complete_watermark.
  - by left.
  - by left.
  - destruct (latestEpochsReactionsRunning s); [|by left].
    unfold fetchLatestEpochsOnBlockHeightChange.
    destruct (skipsFetch s); [by left | by right].
  - left. destruct (latestEpochsReactionsRunning s); [|done].
    apply sync_watermark.
Qed.

Lemma step_keeps h ev s :
  keepsBlockHeight h ev ->
  blockHeight (networkInfo s) = h ->
  blockHeight (networkInfo (fst (step ev s))) = h
  /\ lastFetchedAtBlockHeight (fst (step ev s)) = lastFetchedAtBlockHeight s.
Proof.
  intros Hk Hh. destruct ev as [a|k outcome|ni|b| |]; simpl in *.
  - by destruct a.
  - by rewrite complete_networkInfo, complete_watermark.
  - done.
  - done.
  - done.
  - destruct (latestEpochsReactionsRunning s); simpl; [|done].
    destruct (sync_watermark s) as [-> ->]. done.
Qed.

Lemma run_keeps h evs : forall s,
  Forall (keepsBlockHeight h) evs ->
  blockHeight (networkInfo s) = h ->
  blockHeight (networkInfo (fst (run evs s))) = h
  /\ lastFetchedAtBlockHeight (fst (run evs s)) = lastFetchedAtBlockHeight s.
Proof.
  induction evs as [|ev evs IH]; intros s Hall Hh; simpl; [done|].
  inversion Hall as [|? ? Hev Hevs]; subst.
  destruct (step_keeps _ ev s Hev eq_refl) as [Hb Hw].
  destruct (step ev s) as [s1 ps1]. simpl in *.
  destruct (IH s1 Hevs Hb) as [Hb' Hw'].
  destruct (run evs s1) as [s2 ps2]. simpl in *.
  split; congruence.
Qed.

(** C2, as the code has it: when [currentEpoch] is a number, the watermark
    holds [h1], the block height has moved to [h2], different from [h1], the
    range query is not executing and Network Info is not fetching, one
    evaluation of the
    reaction writes [h2] to the watermark and then triggers exactly one
    [fetchLatestEpochs], which is still in flight when the evaluation ends.
    No completion writes the watermark; it starts at 0 and every event either
    keeps it or is the reaction setting it to the observed height. *)
Theorem height_change_fires_once
    (s : EpochsStore) (h1 h2 : Z) (n : Js.number) :
  lastFetchedAtBlockHeight s = h1 ->
  blockHeight (networkInfo s) = h2 ->
  h1 <> h2 ->
  currentEpoch (networkInfo s) = Js.num n ->
  isExecuting (getEpochsInRangeQuery s) = false ->
  isFetching (networkInfo s) = false ->
  let after := fetchLatestEpochsOnBlockHeightChange s in
  after = (fst (fetchLatestEpochs (set_lastFetchedAtBlockHeight h2 s)),
           [snd (fetchLatestEpochs (set_lastFetchedAtBlockHeight h2 s))])
  /\ length (snd after) = 1%nat
  /\ Forall (fun p => continuation p = AfterFetchLatestEpochs) (snd after)
  /\ lastFetchedAtBlockHeight (fst after) = h2
  /\ isExecuting (getEpochsInRangeQuery (fst after)) = true
  /\ (forall k outcome s',
        lastFetchedAtBlockHeight (complete k outcome s')
        = lastFetchedAtBlockHeight s')
  /\ (forall ni b, lastFetchedAtBlockHeight (new_EpochsStore ni b) = 0)
  /\ (forall ev s',
        lastFetchedAtBlockHeight (fst (step ev s'))
        = lastFetchedAtBlockHeight s'
        \/ (ev = ReactFetch
            /\ lastFetchedAtBlockHeight (fst (step ev s'))
               = blockHeight (networkInfo s'))).
Proof.
  intros Hw Hh Hne Hn Hex Hf. simpl.
  unfold fetchLatestEpochsOnBlockHeightChange, skipsFetch.
  rewrite Hn, Hex, Hf, Hw, Hh. simpl.
  destruct (Z.eqb_spec h1 h2) as [|_]; [done|]. simpl. rewrite ?Hn.
  split; [reflexivity|]. split; [reflexivity|].
  split; [by repeat constructor|]. split; [reflexivity|].
  split; [reflexivity|]. split; [apply complete_watermark|].
  split; [reflexivity | apply step_watermark].
Qed.

Lemma height_change_fires_once_witness :
  let s := new_EpochsStore (network 5 (Js.num (Js.Int 10)) false)
                           {| latestBlocks := [] |} in
  let after := fetchLatestEpochsOnBlockHeightChange s in
  length (snd after) = 1%nat
  /\ lastFetchedAtBlockHeight (fst after) = 5.
Proof.
  pose proof (height_change_fires_once
    (new_EpochsStore (network 5 (Js.num (Js.Int 10)) false)
                     {| latestBlocks := [] |})
    0 5 (Js.Int 10) eq_refl eq_refl ltac:(discriminate)
    eq_refl eq_refl eq_refl) as (_ & Hone & _ & Hw & _).
  split; [exact Hone | exact Hw].
Defined.

(** C2 as stated fails in two ways.  With [currentEpoch] unknown: the
    height has moved from 0 to 5 and nothing is in flight, yet the reaction
    returns without a fetch and leaves the watermark at 0.  With the
    watermark already at the new height: the store fetched at height 7, the
    height went to 8 and back to 7, the epoch is known and nothing is in
    flight, yet the reaction returns without a fetch. *)
Lemma height_change_without_fetch :
  (let s := scenario_no_epoch in
   lastFetchedAtBlockHeight s = 0
   /\ blockHeight (networkInfo s) = 5
   /\ isExecuting (getEpochsInRangeQuery s) = false
   /\ isFetching (networkInfo s) = false
   /\ fetchLatestEpochsOnBlockHeightChange s = (s, [])
   /\ length (snd (fetchLatestEpochsOnBlockHeightChange s)) <> 1%nat
   /\ lastFetchedAtBlockHeight (fst (fetchLatestEpochsOnBlockHeightChange s))
      <> 5)
  /\ (let s := scenario_height_back in
      blockHeight (networkInfo scenario_height_8) = 8
      /\ blockHeight (networkInfo s) = 7
      /\ currentEpoch (networkInfo s) = Js.num (Js.Int 10)
      /\ isExecuting (getEpochsInRangeQuery s) = false
      /\ isFetching (networkInfo s) = false
      /\ lastFetchedAtBlockHeight s = 7
      /\ fetchLatestEpochsOnBlockHeightChange s = (s, [])
      /\ length (snd (fetchLatestEpochsOnBlockHeightChange s)) <> 1%nat).
Proof.
  split.
  - repeat split; try reflexivity; vm_compute; discriminate.
  - repeat split; try reflexivity; vm_compute; discriminate.
Qed.

(** C3, as the code has it: between two evaluations of the reaction anything
    may happen except a change of the block height; the two evaluations
    together make at most one gateway call, and if the first evaluation made
    the call, or found the watermark at the block height, the second finds
    the watermark equal to the block height and returns without a fetch. *)
Theorem reaction_idempotent
    (s s1 s1' s2 : EpochsStore) (evs : list Event)
    (ps1 qs ps2 : list Pending) :
  fetchLatestEpochsOnBlockHeightChange s = (s1, ps1) ->
  Forall (keepsBlockHeight (blockHeight (networkInfo s))) evs ->
  run evs s1 = (s1', qs) ->
  fetchLatestEpochsOnBlockHeightChange s1' = (s2, ps2) ->
  (length ps1 + length ps2 <= 1)%nat
  /\ (ps1 <> []
      \/ lastFetchedAtBlockHeight s = blockHeight (networkInfo s) ->
      lastFetchedAtBlockHeight s1' = blockHeight (networkInfo s1')
      /\ ps2 = [] /\ s2 = s1').
Proof.
  intros H1 Hevs Hrun H2.
  assert (Hset : ps1 <> []
            \/ lastFetchedAtBlockHeight s = blockHeight (networkInfo s) ->
            lastFetchedAtBlockHeight s1' = blockHeight (networkInfo s1')
            /\ ps2 = [] /\ s2 = s1').
  { intros Hcase.
    assert (Hs1 : lastFetchedAtBlockHeight s1 = blockHeight (networkInfo s)
                  /\ networkInfo s1 = networkInfo s).
    { destruct Hcase as [Hne|Heq].
      - pose proof (reaction_fired s) as Hf. rewrite H1 in Hf. by apply Hf.
      - rewrite (reaction_skips_at_watermark s Heq) in H1.
        inversion H1; subst. done. }
    destruct Hs1 as [Hw Hni].
    assert (Hb1 : blockHeight (networkInfo s1) = blockHeight (networkInfo s))
      by (by rewrite Hni).
    destruct (run_keeps _ evs s1 Hevs Hb1) as [Hb Hw'].
    rewrite Hrun in Hb, Hw'. simpl in Hb, Hw'.
    assert (Heq : lastFetchedAtBlockHeight s1' = blockHeight (networkInfo s1'))
      by congruence.
    rewrite (reaction_skips_at_watermark s1' Heq) in H2.
    inversion H2; subst. done. }
  split; [|exact Hset].
  destruct ps1 as [|p ps1].
  - pose proof (reaction_at_most_one s1') as Hle. rewrite H2 in Hle.
    simpl in *. lia.
  - destruct Hset as (_ & -> & _); [by left|].
    pose proof (reaction_at_most_one s) as Hle. rewrite H1 in Hle.
    simpl in *. lia.
Qed.

Lemma reaction_idempotent_witness :
  let s := new_EpochsStore (network 5 (Js.num (Js.Int 10)) false)
                           {| latestBlocks := [] |} in
  let '(s1, ps1) := fetchLatestEpochsOnBlockHeightChange s in
  let '(s1', _) :=
    run [Settled AfterFetchLatestEpochs (Some [RObj (epoch 10 100)]);
         NetworkInfoChanged (network 5 (Js.num (Js.Int 11)) false)] s1 in
  let '(_, ps2) := fetchLatestEpochsOnBlockHeightChange s1' in
  length ps1 = 1%nat /\ (length ps1 + length ps2 <= 1)%nat.
Proof.
  split; [reflexivity|].
  refine (proj1 (reaction_idempotent
    (new_EpochsStore (network 5 (Js.num (Js.Int 10)) false)
                     {| latestBlocks := [] |})
    _ _ _
    [Settled AfterFetchLatestEpochs (Some [RObj (epoch 10 100)]);
     NetworkInfoChanged (network 5 (Js.num (Js.Int 11)) false)]
    _ _ _ eq_refl _ eq_refl eq_refl)).
  repeat constructor.
Defined.

(** C3 as stated fails for its second half: from the store without a known
    epoch the first evaluation returns at the [isNumber] guard; the epoch
    then becomes known at the same height 5, and the second evaluation finds
    the watermark 0, not 5, and fetches. *)
Lemma second_evaluation_fetches :
  let s := scenario_no_epoch in
  let evs := [NetworkInfoChanged (network 5 (Js.num (Js.Int 10)) false)] in
  let s1 := fst (fetchLatestEpochsOnBlockHeightChange s) in
  let s1' := fst (run evs s1) in
  snd (fetchLatestEpochsOnBlockHeightChange s) = []
  /\ Forall (keepsBlockHeight (blockHeight (networkInfo s))) evs
  /\ blockHeight (networkInfo s) = 5
  /\ blockHeight (networkInfo s1') = 5
  /\ lastFetchedAtBlockHeight s1' = 0
  /\ lastFetchedAtBlockHeight s1' <> blockHeight (networkInfo s1')
  /\ length (snd (fetchLatestEpochsOnBlockHeightChange s1')) = 1%nat
  /\ snd (fetchLatestEpochsOnBlockHeightChange s1') <> [].
Proof.
  repeat split; try reflexivity;
    try (repeat constructor); vm_compute; discriminate.
Qed.

(** * Further properties *)

(** ** shrinkAddress *)

Lemma ellipsis_length : length ellipsis = 3%nat.
Proof. reflexivity. Qed.

(** The two cases of [shrinkAddress], on the length as a natural number. *)
Lemma shrinkAddress_cases (address : Js.jsstring) :
  ((length address <= 34)%nat /\ shrinkAddress address = address)
  \/ ((34 < length address)%nat
      /\ shrinkAddress address
         = take 17 address ++ ellipsis ++ drop (length address - 17) address
      /\ length (take 17 address) = 17%nat
      /\ length (drop (length address - 17) address) = 17%nat).
Proof.
  destruct (Z.leb_spec (Js.str_length address) 34) as [Hle|Hlt].
  - left. split; [unfold Js.str_length in Hle; lia|].
    unfold shrinkAddress.
    destruct (Z.leb_spec (Js.str_length address) 34); [reflexivity | lia].
  - right. assert (Hn : (34 < length address)%nat)
      by (unfold Js.str_length in Hlt; lia).
    split; [exact Hn|]. split; [by apply shrinkAddress_long|].
    split; [rewrite length_take; lia | rewrite length_drop; lia].
Qed.

(** Shortening an address that was already shortened changes nothing. *)
Theorem shrinkAddress_idempotent (address : Js.jsstring) :
  shrinkAddress (shrinkAddress address) = shrinkAddress address.
Proof.
  destruct (shrinkAddress_cases address)
    as [[_ Heq]|(_ & Heq & Hp & Hq)]; rewrite Heq; [exact Heq|].
  set (p := take 17 address) in *.
  set (q := drop (length address - 17) address) in *.
  destruct (shrinkAddress_cases (p ++ ellipsis ++ q))
    as [[Hle _]|(_ & Heq' & _ & _)].
  - rewrite !length_app, Hp, Hq, ellipsis_length in Hle. lia.
  - rewrite Heq'. rewrite !length_app, Hp, Hq, ellipsis_length.
    replace (17 + (3 + 17) - 17)%nat with 20%nat by lia.
    rewrite (take_app_length' p _ 17) by done.
    rewrite (app_assoc p ellipsis q) at 1.
    rewrite (drop_app_length' (p ++ ellipsis) q 20)
      by (by rewrite length_app, Hp, ellipsis_length).
    reflexivity.
Qed.

(** The result starts with the same (up to) 17 code units as the address and
    ends with the same (up to) 17 code units. *)
Theorem shrinkAddress_keeps_ends (address : Js.jsstring) :
  take 17 (shrinkAddress address) = take 17 address
  /\ drop (length (shrinkAddress address) - 17) (shrinkAddress address)
     = drop (length address - 17) address.
Proof.
  destruct (shrinkAddress_cases address)
    as [[_ Heq]|(_ & Heq & Hp & Hq)]; rewrite Heq; [done|].
  set (p := take 17 address) in *.
  set (q := drop (length address - 17) address) in *.
  split.
  - by rewrite (take_app_length' p _ 17).
  - rewrite !length_app, Hp, Hq, ellipsis_length.
    replace (17 + (3 + 17) - 17)%nat with 20%nat by lia.
    rewrite (app_assoc p ellipsis q).
    by rewrite (drop_app_length' (p ++ ellipsis) q 20)
      by (by rewrite length_app, Hp, ellipsis_length).
Qed.

(** The result never has more than 37 code units, and it is shorter than the
    address exactly when the address has more than 37. *)
Theorem shrinkAddress_length (address : Js.jsstring) :
  (length (shrinkAddress address) <= 37)%nat
  /\ ((length (shrinkAddress address) < length address)%nat
      <-> (37 < length address)%nat).
Proof.
  destruct (shrinkAddress_cases address)
    as [[Hle Heq]|(Hlt & Heq & Hp & Hq)]; rewrite Heq.
  - split; lia.
  - rewrite !length_app, Hp, Hq, ellipsis_length. simpl. split; lia.
Qed.

(** ** Requested ranges *)

Lemma browseEpochs_request_exact (s : EpochsStore) (p q : Z) :
  Js.safe (p * q) -> Js.safe (p * q - q) ->
  request (snd (browseEpochs {| page := Js.Int p; perPage := Js.Int q |} s))
  = {| lower := Js.num (Js.Int (p * q - q));
       upper := Js.num (Js.Int (p * q)) |}
  /\ length (snd (trigger (browseEpochs_action
                             {| page := Js.Int p; perPage := Js.Int q |}) s))
     = 1%nat.
Proof.
  intros Hmul Hsub. split; [|reflexivity].
  unfold browseEpochs, fetchEpochsInRange. cbn [snd request page perPage].
  by rewrite Number_mul_safe, Number_sub_safe.
Qed.

(** [browseEpochs] on whole numbers, wherever doubles are exact
    ([p, q >= 0] and [(p + 1) * q <= 2^53]): page [p] of size [q] asks for
    the range from [(p - 1) * q] to [p * q], [q] apart; the first page starts
    at 0, and the next page starts at the bound where this one ends. *)
Theorem browseEpochs_pages_adjoin (s s' : EpochsStore) (p q : Z) :
  0 <= p -> 0 <= q -> (p + 1) * q <= Js.max_exact ->
  let this := request (snd (browseEpochs
                              {| page := Js.Int p; perPage := Js.Int q |} s)) in
  let next := request (snd (browseEpochs
                              {| page := Js.Int (p + 1); perPage := Js.Int q |}
                              s')) in
  this = {| lower := Js.num (Js.Int ((p - 1) * q));
            upper := Js.num (Js.Int (p * q)) |}
  /\ Js.sub (upper this) (lower this) = Js.Int q
  /\ lower next = upper this
  /\ (p = 1 -> lower this = Js.num (Js.Int 0)).
Proof.
  intros Hp Hq Hmax.
  assert (Hexact : 0 < Js.max_exact) by (by vm_compute).
  assert (Hpq : Js.safe (p * q)) by (unfold Js.safe; nia).
  assert (Hpq1 : Js.safe (p * q - q)) by (unfold Js.safe; nia).
  assert (Hnext : Js.safe ((p + 1) * q)) by (unfold Js.safe; nia).
  assert (Hnext1 : Js.safe ((p + 1) * q - q)) by (unfold Js.safe; nia).
  assert (Hq' : Js.safe (p * q - (p * q - q))) by (unfold Js.safe; nia).
  destruct (browseEpochs_request_exact s p q Hpq Hpq1) as [Hthis _].
  destruct (browseEpochs_request_exact s' (p + 1) q Hnext Hnext1) as [Hnxt _].
  cbv zeta. rewrite Hthis, Hnxt. cbn [lower upper]. unfold Js.sub.
  cbn [Js.ToNumber]. rewrite Number_sub_safe by exact Hq'.
  replace (p * q - q) with ((p - 1) * q) by lia.
  replace ((p + 1) * q - q) with (p * q) by lia.
  repeat split.
  - f_equal. lia.
  - intros ->. do 2 f_equal.
Qed.

Lemma browseEpochs_pages_adjoin_witness :
  let this := request (snd (browseEpochs
                              {| page := Js.Int 2; perPage := Js.Int 10 |}
                              scenario_start)) in
  this = {| lower := Js.num (Js.Int 10); upper := Js.num (Js.Int 20) |}.
Proof.
  exact (proj1 (browseEpochs_pages_adjoin scenario_start scenario_start 2 10
    ltac:(lia) ltac:(lia)
    ltac:(change Js.max_exact with 9007199254740992; lia))).
Defined.

(** A page or page size that is not a number makes both bounds NaN; the
    gateway is called all the same. *)
Theorem browseEpochs_NaN (s : EpochsStore) (params : BrowseEpochsParams) :
  page params = Js.NaN \/ perPage params = Js.NaN ->
  request (snd (browseEpochs params s))
  = {| lower := Js.num Js.NaN; upper := Js.num Js.NaN |}
  /\ length (snd (trigger (browseEpochs_action params) s)) = 1%nat.
Proof.
  intros Hnan. unfold browseEpochs. simpl. split; [|reflexivity].
  destruct params as [pg pp]. simpl in *.
  destruct Hnan; subst; [|destruct pg]; reflexivity.
Qed.

Lemma browseEpochs_NaN_witness :
  let s := scenario_start in
  request (snd (browseEpochs {| page := Js.NaN; perPage := Js.Int 10 |} s))
  = {| lower := Js.num Js.NaN; upper := Js.num Js.NaN |}.
Proof.
  exact (proj1 (browseEpochs_NaN scenario_start
                  {| page := Js.NaN; perPage := Js.Int 10 |}
                  (or_introl eq_refl))).
Defined.

(** [fetchLatestEpochs] with a whole current epoch [n], wherever doubles
    are exact ([|n| <= 2^53]): for [n >= 0] the range lies within [[0, n]]
    and spans [min n 4] epochs below [n]; for a negative [n] the lower bound
    0 is above the upper bound. *)
Theorem fetchLatestEpochs_window (s : EpochsStore) (n : Z) :
  currentEpoch (networkInfo s) = Js.num (Js.Int n) ->
  Js.safe n ->
  exists lo,
    request (snd (fetchLatestEpochs s))
    = {| lower := Js.num (Js.Int lo); upper := Js.num (Js.Int n) |}
    /\ 0 <= lo
    /\ (0 <= n -> lo <= n /\ n - lo = Z.min n 4)
    /\ (n < 0 -> lo = 0 /\ n < lo).
Proof.
  intros Hn Hsafe. exists (Z.max 0 (n - 4)).
  split; [|repeat split; lia].
  unfold fetchLatestEpochs, fetchEpochsInRange, Js.sub. cbn [snd request].
  rewrite Hn. cbn [Js.ToNumber]. by rewrite clamp_sub4_safe.
Qed.

Lemma fetchLatestEpochs_window_witness :
  let s := new_EpochsStore (network 7 (Js.num (Js.Int 2)) false)
                           {| latestBlocks := [] |} in
  exists lo,
    request (snd (fetchLatestEpochs s))
    = {| lower := Js.num (Js.Int lo); upper := Js.num (Js.Int 2) |}
    /\ 0 <= lo.
Proof.
  destruct (fetchLatestEpochs_window
    (new_EpochsStore (network 7 (Js.num (Js.Int 2)) false)
                     {| latestBlocks := [] |}) 2 eq_refl
    ltac:(unfold Js.safe; change Js.max_exact with 9007199254740992; lia))
    as (lo & Hreq & Hlo & _).
  exists lo. split; [exact Hreq | exact Hlo].
Defined.

(** A call made by the polling reaction never carries [undefined]: its
    upper bound is the number Network Info reports, its lower bound is
    computed from that number, and the watermark is already at the observed
    height. *)
Theorem reaction_request_is_numeric (s : EpochsStore) (p : Pending) :
  p ∈ snd (fetchLatestEpochsOnBlockHeightChange s) ->
  exists n,
    currentEpoch (networkInfo s) = Js.num n
    /\ request p
       = {| lower := Js.num (Js.Math_max (Js.Int 0)
                               (Js.Number_sub n (Js.Int 4)));
            upper := Js.num n |}
    /\ continuation p = AfterFetchLatestEpochs
    /\ lastFetchedAtBlockHeight (fst (fetchLatestEpochsOnBlockHeightChange s))
       = blockHeight (networkInfo s)
    /\ isExecuting (getEpochsInRangeQuery s) = false
    /\ isFetching (networkInfo s) = false.
Proof.
  unfold fetchLatestEpochsOnBlockHeightChange, skipsFetch.
  destruct (currentEpoch (networkInfo s)) as [|n] eqn:Hn; simpl.
  - intros Hin. by apply elem_of_nil in Hin.
  - destruct (isExecuting (getEpochsInRangeQuery s)); simpl;
      [intros Hin; by apply elem_of_nil in Hin|].
    destruct (isFetching (networkInfo s)); simpl;
      [intros Hin; by apply elem_of_nil in Hin|].
    destruct (lastFetchedAtBlockHeight s =? blockHeight (networkInfo s)); simpl;
      [intros Hin; by apply elem_of_nil in Hin|].
    unfold fetchLatestEpochs. simpl. rewrite Hn.
    intros Hin. apply list_elem_of_singleton in Hin. subst p.
    exists n. done.
Qed.

Lemma reaction_request_is_numeric_witness :
  let s := new_EpochsStore (network 5 (Js.num (Js.Int 10)) false)
                           {| latestBlocks := [] |} in
  exists n, currentEpoch (networkInfo s) = Js.num n.
Proof.
  destruct (reaction_request_is_numeric
    (new_EpochsStore (network 5 (Js.num (Js.Int 10)) false)
                     {| latestBlocks := [] |})
    {| request := {| lower := Js.num (Js.Int 6); upper := Js.num (Js.Int 10) |};
       continuation := AfterFetchLatestEpochs |}
    ltac:(vm_compute; apply list_elem_of_here))
    as (n & Hn & _).
  exists n. exact Hn.
Defined.

(** ** More on the lag-correction reaction *)

(** Either the reaction changes nothing, or it has found a block and a first
    snapshot entry that refers to an object. *)
Lemma sync_cases s :
  syncLatestEpochWithLatestBlockDate s = s
  \/ exists r l rest b bs e,
       result (getEpochsInRangeQuery s) = Some r
       /\ epochs r = ERef l :: rest
       /\ latestBlocks (blocks s) = b :: bs
       /\ heap s !! l = Some e.
Proof.
  unfold syncLatestEpochWithLatestBlockDate.
  destruct (latestBlocks (blocks s)) as [|b bs] eqn:Hb; simpl; [by left|].
  destruct (result (getEpochsInRangeQuery s)) as [r|] eqn:Hr; simpl;
    [|by left].
  destruct (epochs r) as [|[| |l] rest] eqn:He; try by left.
  destruct (heap s !! l) as [e|] eqn:Hl; [|by left].
  right. by exists r, l, rest, b, bs, e.
Qed.

(** Running the reaction a second time changes nothing more. *)
Theorem sync_idempotent (s : EpochsStore) :
  syncLatestEpochWithLatestBlockDate (syncLatestEpochWithLatestBlockDate s)
  = syncLatestEpochWithLatestBlockDate s.
Proof.
  destruct (sync_cases s) as [Hid|(r & l & rest & b & bs & e & Hr & He & Hb & Hl)].
  - by rewrite !Hid.
  - rewrite (sync_patch s r l rest b bs e) by assumption.
    set (e' := set_lastBlockTime (createdAt b) e).
    rewrite (sync_patch (set_heap (<[l := e']> (heap s)) s) r l rest b bs e');
      try assumption.
    + simpl. by rewrite list_insert_insert_eq.
    + simpl. apply list_lookup_insert_eq. by eapply lookup_lt_Some.
Qed.

(** The reaction leaves the store alone when there is no latest block, no
    result snapshot, an empty snapshot, a snapshot whose first member is
    [null] or [undefined], or a first epoch already carrying the block's
    time. *)
Theorem sync_noop (s : EpochsStore) :
  (latestBlocks (blocks s) = [] -> syncLatestEpochWithLatestBlockDate s = s)
  /\ (result (getEpochsInRangeQuery s) = None ->
      syncLatestEpochWithLatestBlockDate s = s)
  /\ (forall r rest,
        result (getEpochsInRangeQuery s) = Some r ->
        epochs r = [] \/ epochs r = ENull :: rest
        \/ epochs r = EUndefined :: rest ->
        syncLatestEpochWithLatestBlockDate s = s)
  /\ (forall r l rest b bs e,
        result (getEpochsInRangeQuery s) = Some r ->
        epochs r = ERef l :: rest ->
        latestBlocks (blocks s) = b :: bs ->
        heap s !! l = Some e ->
        lastBlockTime e = createdAt b ->
        syncLatestEpochWithLatestBlockDate s = s).
Proof.
  split; [|split; [|split]].
  - intros Hb. unfold syncLatestEpochWithLatestBlockDate. by rewrite Hb.
  - apply sync_no_snapshot.
  - intros r rest Hr He. unfold syncLatestEpochWithLatestBlockDate.
    rewrite Hr. simpl.
    destruct (head (latestBlocks (blocks s))); [|done].
    by destruct He as [-> | [-> | ->]].
  - intros r l rest b bs e Hr He Hb Hl Ht.
    rewrite (sync_patch s r l rest b bs e) by assumption.
    rewrite <- Ht, set_lastBlockTime_id, list_insert_id by done.
    by destruct s.
Qed.

(** In the ordinary polling flow the list shows the block's time: with the
    snapshot being the latest-epochs array, whose first member is epoch [e],
    and a latest block [b], [latestEpochs] after the reaction starts with
    the overview of [e] carrying [b]'s creation time. *)
Theorem sync_shows_block_time {IEpochOverview : Type}
    (transformer : EpochOverviewFragment -> NetworkInfoStore -> IEpochOverview)
    (s : EpochsStore) (r : GetEpochsInRangeQuery) (l : loc)
    (rest : list Entry) (b : BlockOverview) (bs : list BlockOverview)
    (e : EpochOverviewFragment) :
  result (getEpochsInRangeQuery s) = Some r ->
  epochs r = latestEpochsRawData s ->
  latestEpochsRawData s = ERef l :: rest ->
  latestBlocks (blocks s) = b :: bs ->
  heap s !! l = Some e ->
  allocated (heap s) rest ->
  exists os,
    latestEpochs transformer (syncLatestEpochWithLatestBlockDate s)
    = Some (transformer (set_lastBlockTime (createdAt b) e) (networkInfo s)
              :: os).
Proof.
  intros Hr Ha Hslot Hb Hl Hrest.
  rewrite (sync_patch s r l rest b bs e) by congruence.
  set (s' := set_heap _ s).
  assert (Hrest' : allocated (heap s') rest).
  { unfold allocated in *. subst s'. simpl. by rewrite length_insert. }
  apply allocated_view in Hrest' as [raw Hraw].
  pose proof (transformEpochs_view transformer s' rest raw Hraw) as Hos.
  unfold latestEpochs, transformEpochs in *.
  replace (latestEpochsRawData s') with (ERef l :: rest) by (by subst s').
  simpl. rewrite Hos.
  replace (heap s' !! l)
    with (Some (set_lastBlockTime (createdAt b) e)).
  - simpl. by eexists.
  - subst s'. simpl. symmetry. apply list_lookup_insert_eq.
    by eapply lookup_lt_Some.
Qed.

Lemma sync_shows_block_time_witness :
  exists os,
    latestEpochs (fun e _ => (number e, lastBlockTime e))
      (syncLatestEpochWithLatestBlockDate scenario_latest)
    = Some ((10, 200) :: os).
Proof.
  exact (sync_shows_block_time (fun e _ => (number e, lastBlockTime e))
    scenario_latest {| epochs := [ERef 0%nat; ERef 1%nat] |} 0%nat
    [ERef 1%nat] (block 200) [] (epoch 10 100)
    eq_refl eq_refl eq_refl eq_refl eq_refl
    ltac:(repeat constructor)).
Defined.

(** ** What events can and cannot change *)

Lemma complete_heap k outcome s :
  exists ext, heap (complete k outcome s) = heap s ++ ext.
Proof.
  complete_cases k outcome s;
    try (destruct (alloc_inv _ _ _ _ Halloc) as (ext & -> & _); by exists ext);
    exists []; by rewrite app_nil_r.
Qed.

(** No event removes an epoch object or changes its number, and only the
    lag-correction reaction changes an object at all. *)
Theorem step_keeps_objects
    (ev : Event) (s : EpochsStore) (l : loc) (e : EpochOverviewFragment) :
  heap s !! l = Some e ->
  exists e',
    heap (fst (step ev s)) !! l = Some e'
    /\ number e' = number e
    /\ (ev <> ReactSync -> e' = e).
Proof.
  intros Hl. destruct ev as [a|k outcome|ni|b| |]; simpl.
  - exists e. by destruct a.
  - destruct (complete_heap k outcome s) as [ext ->].
    exists e. by rewrite (lookup_app_l_Some _ _ _ _ Hl).
  - by exists e.
  - by exists e.
  - exists e. destruct (latestEpochsReactionsRunning s); [|done].
    unfold fetchLatestEpochsOnBlockHeightChange.
    by destruct (skipsFetch s).
  - destruct (latestEpochsReactionsRunning s); simpl; [|by exists e].
    destruct (sync_cases s)
      as [->|(r & l0 & rest & b & bs & e0 & Hr & He & Hb & Hl0)];
      [by exists e|].
    rewrite (sync_patch s r l0 rest b bs e0) by assumption. simpl.
    destruct (decide (l0 = l)) as [->|Hne].
    + exists (set_lastBlockTime (createdAt b) e0).
      rewrite list_lookup_insert_eq by (by eapply lookup_lt_Some).
      rewrite Hl in Hl0. inversion Hl0; subst. done.
    + exists e. by rewrite list_lookup_insert_ne.
Qed.

Lemma step_keeps_objects_witness :
  exists e',
    heap (fst (step ReactSync (startPollingLatestEpochs scenario_latest)))
      !! 0%nat = Some e'
    /\ number e' = 10.
Proof.
  destruct (step_keeps_objects ReactSync
              (startPollingLatestEpochs scenario_latest) 0%nat (epoch 10 100)
              eq_refl) as (e' & Hl & Hn & _).
  exists e'. split; [exact Hl | exact Hn].
Defined.

(** The browsed array is replaced only when a [browseEpochs] call settles
    with a result, the latest array only when a [fetchLatestEpochs] call
    does; every other event leaves both arrays in place. *)
Theorem slots_replaced_only_by_own_fetch (ev : Event) (s : EpochsStore) :
  (browsedEpochsRawData (fst (step ev s)) <> browsedEpochsRawData s ->
   exists raw, ev = Settled AfterBrowseEpochs (Some raw))
  /\ (latestEpochsRawData (fst (step ev s)) <> latestEpochsRawData s ->
      exists raw, ev = Settled AfterFetchLatestEpochs (Some raw)).
Proof.
  assert (Hsync : browsedEpochsRawData (syncLatestEpochWithLatestBlockDate s)
                  = browsedEpochsRawData s
                  /\ latestEpochsRawData (syncLatestEpochWithLatestBlockDate s)
                     = latestEpochsRawData s).
  { destruct (sync_cases s)
      as [->|(r & l0 & rest & b & bs & e0 & Hr & He & Hb & Hl0)]; [done|].
    by rewrite (sync_patch s r l0 rest b bs e0). }
  destruct ev as [a|k outcome|ni|b| |]; simpl.
  - destruct a; simpl; split; intros Hne; by destruct Hne.
  - destruct outcome as [raw|], k; unfold complete, settle;
      try destruct (alloc raw (heap s)) as [h es]; simpl;
      split; intros Hne; try (by destruct Hne); by exists raw.
  - split; intros Hne; by destruct Hne.
  - split; intros Hne; by destruct Hne.
  - destruct (latestEpochsReactionsRunning s);
      [|split; intros Hne; by destruct Hne].
    unfold fetchLatestEpochsOnBlockHeightChange.
    destruct (skipsFetch s); simpl; split; intros Hne; by destruct Hne.
  - destruct (latestEpochsReactionsRunning s); simpl;
      [|split; intros Hne; by destruct Hne].
    destruct Hsync as [-> ->]. split; intros Hne; by destruct Hne.
Qed.

(** ** One polling call per block height *)

Lemma reaction_networkInfo s :
  networkInfo (fst (fetchLatestEpochsOnBlockHeightChange s)) = networkInfo s.
Proof.
  unfold fetchLatestEpochsOnBlockHeightChange. by destruct (skipsFetch s).
Qed.

Lemma reaction_keeps_set_watermark s :
  lastFetchedAtBlockHeight s = blockHeight (networkInfo s) ->
  lastFetchedAtBlockHeight (fst (fetchLatestEpochsOnBlockHeightChange s))
  = blockHeight (networkInfo s).
Proof. intros Heq. by rewrite (reaction_skips_at_watermark s Heq). Qed.

(** One event of a run at height [h]: the height stays, a watermark at [h]
    stays, and the event counts as a polling call only if it is the reaction
    firing, which puts the watermark at [h]. *)
Lemma step_observes h ev s :
  observesBlockHeight h ev ->
  blockHeight (networkInfo s) = h ->
  let n := match ev with
           | ReactFetch => length (snd (step ev s))
           | _ => 0%nat
           end in
  blockHeight (networkInfo (fst (step ev s))) = h
  /\ (lastFetchedAtBlockHeight s = h ->
      lastFetchedAtBlockHeight (fst (step ev s)) = h /\ n = 0%nat)
  /\ (n <= 1)%nat
  /\ (n <> 0%nat -> lastFetchedAtBlockHeight (fst (step ev s)) = h).
Proof.
  intros Hobs Hh.
  assert (Hother : ev <> ReactFetch ->
            blockHeight (networkInfo (fst (step ev s))) = h
            /\ lastFetchedAtBlockHeight (fst (step ev s))
               = lastFetchedAtBlockHeight s).
  { intros Hne. apply step_keeps; [|done]. by destruct ev. }
  destruct ev as [a|k outcome|ni|b| |];
    try (destruct Hother as [Hb Hw]; [done|];
         split; [exact Hb|]; rewrite Hw;
         split; [done|]; split; [lia|done]).
  clear Hother. simpl.
  destruct (latestEpochsReactionsRunning s); simpl;
    [|split; [done|]; split; [done|]; split; [lia|done]].
  rewrite reaction_networkInfo.
  split; [done|]. split; [|split].
  - intros Hw. rewrite reaction_skips_at_watermark by congruence. done.
  - apply reaction_at_most_one.
  - intros Hn. rewrite <- Hh. apply reaction_fired.
    intros Hnil. by rewrite Hnil in Hn.
Qed.

(** While the observed block height stays the same, all evaluations of the
    polling reaction in a run, however many and whatever happens between
    them, make at most one gateway call; none at all if the watermark is
    already at that height. *)
Theorem polling_single_flight (evs : list Event) (s : EpochsStore) (h : Z) :
  Forall (observesBlockHeight h) evs ->
  blockHeight (networkInfo s) = h ->
  (pollingCalls evs s <= 1)%nat
  /\ (lastFetchedAtBlockHeight s = h -> pollingCalls evs s = 0%nat).
Proof.
  revert s. induction evs as [|ev evs IH]; intros s Hall Hh; simpl;
    [split; [lia | done]|].
  inversion Hall as [|? ? Hev Hevs]; subst.
  destruct (step_observes _ ev s Hev eq_refl) as (Hb & Hset & Hle & Hfired).
  destruct (step ev s) as [s1 ps]. simpl in *.
  destruct (IH s1 Hevs Hb) as [IHle IHzero].
  set (n := match ev with ReactFetch => length ps | _ => 0%nat end) in *.
  split.
  - destruct (decide (n = 0%nat)) as [->|Hn]; [simpl; lia|].
    rewrite (IHzero (Hfired Hn)). lia.
  - intros Hw. destruct (Hset Hw) as [Hw1 ->]. by rewrite (IHzero Hw1).
Qed.

Lemma polling_single_flight_witness :
  let s := startPollingLatestEpochs
             (new_EpochsStore (network 5 (Js.num (Js.Int 10)) false)
                              {| latestBlocks := [] |}) in
  (pollingCalls
     [ReactFetch;
      Settled AfterFetchLatestEpochs (Some [RObj (epoch 10 100)]);
      ReactFetch;
      NetworkInfoChanged (network 5 (Js.num (Js.Int 11)) false);
      ReactFetch] s <= 1)%nat.
Proof.
  refine (proj1 (polling_single_flight _
    (startPollingLatestEpochs
       (new_EpochsStore (network 5 (Js.num (Js.Int 10)) false)
                        {| latestBlocks := [] |})) 5 _ eq_refl)).
  repeat constructor.
Defined.

(** ** Reading after fetching *)

Lemma reachable_wf s : reachable s -> wf s.
Proof. intros (ni & b & evs & <-). apply wf_run, wf_new. Qed.

Section FetchThenRead.

Context {IEpochOverview : Type}.
Variable transformer : EpochOverviewFragment -> NetworkInfoStore -> IEpochOverview.

(** New objects do not change how an array of old references is read. *)
Lemma transformEpochs_extend s s' ext es :
  heap s' = heap s ++ ext ->
  networkInfo s' = networkInfo s ->
  allocated (heap s) es ->
  transformEpochs transformer s' es = transformEpochs transformer s es.
Proof.
  intros Hh Hni Hes.
  apply allocated_view in Hes as [raw Hraw].
  rewrite (transformEpochs_view transformer s es raw Hraw).
  rewrite (transformEpochs_view transformer s' es raw).
  - by rewrite Hni.
  - rewrite Hh. by apply view_app.
Qed.

End FetchThenRead.

(** After a page arrived, [browsedEpochs] is the Transformer over the
    non-null members of the response and [latestEpochs] is what it was;
    after the latest epochs arrived it is the other way round. *)
Theorem getters_after_response {IEpochOverview : Type}
    (transformer : EpochOverviewFragment -> NetworkInfoStore -> IEpochOverview)
    (s : EpochsStore) (raw : list RawEntry) :
  reachable s ->
  (let s' := complete AfterBrowseEpochs (Some raw) s in
   browsedEpochs transformer s'
   = Some (map (fun e => transformer e (networkInfo s)) (nonNullRecords raw))
   /\ latestEpochs transformer s' = latestEpochs transformer s)
  /\ (let s' := complete AfterFetchLatestEpochs (Some raw) s in
      latestEpochs transformer s'
      = Some (map (fun e => transformer e (networkInfo s)) (nonNullRecords raw))
      /\ browsedEpochs transformer s' = browsedEpochs transformer s).
Proof.
  intros Hreach. destruct (reachable_wf s Hreach) as (Hb & Hl & _).
  split; simpl.
  - destruct (complete_browsed_Some raw s) as (Hv & Hslot & _ & ext & Hh).
    pose proof (complete_networkInfo AfterBrowseEpochs (Some raw) s) as Hni.
    split.
    + unfold browsedEpochs.
      rewrite (transformEpochs_view transformer _ _ raw Hv). by rewrite Hni.
    + unfold latestEpochs. rewrite Hslot.
      by apply (transformEpochs_extend transformer s _ ext).
  - destruct (complete_latest_Some raw s) as (Hv & Hslot & _ & ext & Hh).
    pose proof (complete_networkInfo AfterFetchLatestEpochs (Some raw) s)
      as Hni.
    split.
    + unfold latestEpochs.
      rewrite (transformEpochs_view transformer _ _ raw Hv). by rewrite Hni.
    + unfold browsedEpochs. rewrite Hslot.
      by apply (transformEpochs_extend transformer s _ ext).
Qed.

Lemma getters_after_response_witness :
  let s' := complete AfterBrowseEpochs
              (Some [RNull; RObj (epoch 1 20); RUndefined; RObj (epoch 0 10)])
              scenario_latest in
  browsedEpochs (fun e _ => (number e, lastBlockTime e)) s'
  = Some [(1, 20); (0, 10)]
  /\ latestEpochs (fun e _ => (number e, lastBlockTime e)) s'
     = Some [(10, 100); (9, 90)].
Proof.
  destruct (getters_after_response (fun e _ => (number e, lastBlockTime e))
              scenario_latest
              [RNull; RObj (epoch 1 20); RUndefined; RObj (epoch 0 10)])
    as [[Hb Hl] _].
  - exists (network 7 (Js.num (Js.Int 10)) false),
           {| latestBlocks := [block 200] |}.
    exists [UserAction fetchLatestEpochs_action;
            Settled AfterFetchLatestEpochs
              (Some [RObj (epoch 10 100); RObj (epoch 9 90)])].
    reflexivity.
  - split; [exact Hb | rewrite Hl; reflexivity].
Defined.

(** [transformBrowsedEpochsResult] is [null] exactly when the gateway has no
    result snapshot; otherwise it is the Transformer over the non-null
    members of the snapshot, whichever handler the snapshot came from: it
    equals [browsedEpochs] when the snapshot is the browsed array and
    [latestEpochs] when it is the latest array. *)
Theorem transformBrowsedEpochsResult_snapshot {IEpochOverview : Type}
    (transformer : EpochOverviewFragment -> NetworkInfoStore -> IEpochOverview)
    (s : EpochsStore) :
  (transformBrowsedEpochsResult transformer s = Some None
   <-> result (getEpochsInRangeQuery s) = None)
  /\ (forall r raw,
        result (getEpochsInRangeQuery s) = Some r ->
        view (heap s) (epochs r) = Some raw ->
        transformBrowsedEpochsResult transformer s
        = Some (Some (map (fun e => transformer e (networkInfo s))
                          (nonNullRecords raw))))
  /\ (forall r,
        result (getEpochsInRangeQuery s) = Some r ->
        (epochs r = browsedEpochsRawData s ->
         transformBrowsedEpochsResult transformer s
         = Some <$> browsedEpochs transformer s)
        /\ (epochs r = latestEpochsRawData s ->
            transformBrowsedEpochsResult transformer s
            = Some <$> latestEpochs transformer s)).
Proof.
  unfold transformBrowsedEpochsResult, browsedEpochs, latestEpochs.
  destruct (result (getEpochsInRangeQuery s)) as [r0|] eqn:Hr.
  - split; [|split].
    + split; [|done].
      by destruct (transformEpochs transformer s (epochs r0)).
    + intros r raw [= <-] Hv.
      by rewrite (transformEpochs_view transformer s _ raw Hv).
    + intros r [= <-]. split; by intros ->.
  - split; [done|]. split; [done|]. intros r Hr'. discriminate.
Qed.
